(** * RecruitIQ: candidate scoring and ranking (recrute.py)

    A shallow embedding of the aggregation and ranking code of
    [recrute.py]: the analytics dashboard ([show_analytics_dashboard]), the
    ranking page ([show_ranking_module]) and the export table
    ([show_data_management]).

    The program is written against pandas.  The part of pandas it uses is
    embedded here with the semantics the program relies on:

    - a float column holds numbers or NaN; a finite float is modelled by an
      exact rational ([Q]) and NaN by its own constructor.  Infinite floats
      do not occur: scores are finite and the only division of the program
      (min-max scaling) has a zero numerator whenever its denominator is
      zero (lemma [norm_cell_zero_den]).  Rationals do not round, so
      nothing below rests on regrouping a sum or cancelling a division,
      which floats do not allow: a numeric result is stated as the
      program computes it (the sum from the left of [sum_from_left], the
      sum over count of [mean_of]), or by its bounds and its order;
    - arithmetic on columns is element by element and propagates NaN;
      reductions ([min], [max], [mean]) skip NaN;
    - [DataFrame(list of dicts)] orders the columns by first appearance of
      the keys and fills the missing keys with NaN;
    - [sort_values(by, ascending=False)] is called with the default
      [kind='quicksort'] and [na_position='last'].  Which algorithm runs
      behind that kind is numpy's business (an introsort or a vectorised
      sort, depending on version and CPU) and it is documented as not
      stable, so the algorithm is a parameter of the embedding
      ([sort_kind]): an [argsort] with its contract.

    The repository module [src.data], the metric registry
    [tab_interview.METRICS] and the plotting module are not part of the
    file; the first two are parameters of the embedding. *)

From Stdlib Require Import List String ZArith QArith Qminmax Lia Lqa Permutation Sorted Bool Arith.
Import ListNotations.

Local Open Scope Q_scope.

(* ================================================================= *)
(** ** Float cells *)

Inductive cell : Type :=
| NaN
| Num (q : Q).

Definition isna (c : cell) : bool :=
  match c with NaN => true | Num _ => false end.

Definition notna (c : cell) : bool := negb (isna c).

Definition value_of (c : cell) : Q :=
  match c with Num q => q | NaN => 0 end.

Definition cadd (a b : cell) : cell :=
  match a, b with Num x, Num y => Num (x + y) | _, _ => NaN end.

Definition csub (a b : cell) : cell :=
  match a, b with Num x, Num y => Num (x - y) | _, _ => NaN end.

Definition cmul (a b : cell) : cell :=
  match a, b with Num x, Num y => Num (x * y) | _, _ => NaN end.

(** Float division of pandas: never raises.  [0/0] is NaN.  [x/0] with
    [x <> 0] would be an infinity; the program never reaches that case
    (see [norm_cell_zero_den]), it is mapped to NaN here. *)
Definition cdiv (a b : cell) : cell :=
  match a, b with
  | Num x, Num y => if Qeq_bool y 0 then NaN else Num (x / y)
  | _, _ => NaN
  end.

(** Equality of cells up to the equality of rationals. *)
Definition ceq (a b : cell) : Prop :=
  match a, b with
  | NaN, NaN => True
  | Num x, Num y => x == y
  | _, _ => False
  end.

(** The comparisons of IEEE floats: false as soon as one side is NaN. *)
Definition cge (a b : cell) : bool :=
  match a, b with Num x, Num y => Qle_bool y x | _, _ => false end.

(** Two cells hold the same score; NaN cells are grouped together. *)
Definition same_score (c c' : cell) : bool :=
  match c, c' with
  | NaN, NaN => true
  | Num x, Num y => Qeq_bool y x
  | _, _ => false
  end.

(** The present (non-NaN) values of a column, in order. *)
Fixpoint present (s : list cell) : list Q :=
  match s with
  | [] => []
  | NaN :: s' => present s'
  | Num q :: s' => q :: present s'
  end.

Definition Qsum (l : list Q) : Q := fold_right Qplus 0 l.

Fixpoint Qmin_list (x : Q) (l : list Q) : Q :=
  match l with [] => x | y :: l' => Qmin_list (Qmin x y) l' end.

Fixpoint Qmax_list (x : Q) (l : list Q) : Q :=
  match l with [] => x | y :: l' => Qmax_list (Qmax x y) l' end.

(** [Series.min()], [Series.max()], [Series.mean()] with [skipna=True]:
    NaN when no value is present. *)
Definition series_min (s : list cell) : cell :=
  match present s with [] => NaN | x :: l => Num (Qmin_list x l) end.

Definition series_max (s : list cell) : cell :=
  match present s with [] => NaN | x :: l => Num (Qmax_list x l) end.

(** The arithmetic mean of a list of numbers; NaN for the empty list. *)
Definition mean_of (l : list Q) : cell :=
  match l with
  | [] => NaN
  | _ => Num (Qsum l / inject_Z (Z.of_nat (List.length l)))
  end.

Definition series_mean (s : list cell) : cell := mean_of (present s).

(* ================================================================= *)
(** ** Python dicts with string keys (insertion ordered) *)

Definition dict (V : Type) : Type := list (string * V).

Fixpoint dict_get {V} (k : string) (d : dict V) : option V :=
  match d with
  | [] => None
  | (k', v) :: d' => if String.eqb k' k then Some v else dict_get k d'
  end.

(** [d[k] = v]: an existing key keeps its position, a new key goes last. *)
Fixpoint dict_set {V} (k : string) (v : V) (d : dict V) : dict V :=
  match d with
  | [] => [(k, v)]
  | (k', v') :: d' =>
      if String.eqb k' k then (k', v) :: d' else (k', v') :: dict_set k v d'
  end.

Definition keys {V} (d : dict V) : list string := map fst d.

Definition mem (k : string) (l : list string) : bool := existsb (String.eqb k) l.

(* ================================================================= *)
(** ** Exceptions *)

Inductive exn : Type :=
| KeyError (k : string).

Inductive result (A : Type) : Type :=
| Ok (a : A)
| Raise (e : exn).
Arguments Ok {A} a.
Arguments Raise {A} e.

Definition bind {A B} (m : result A) (f : A -> result B) : result B :=
  match m with Ok a => f a | Raise e => Raise e end.

Notation "x <- m ;; k" := (bind m (fun x => k))
  (at level 61, m at next level, right associativity).

(* ================================================================= *)
(** ** Sort kinds

    numpy's [argsort(kind=...)] on an array without NaN: the positions of
    the array in ascending order of their values.  The contract is what
    numpy documents for every kind; stability is documented for
    ['stable'] and ['mergesort'] only. *)

Definition key_at (l : list Q) (i : nat) : Q := nth i l 0.

Definition sort_kind : Type := list Q -> list nat.

Definition sorts (argsort : sort_kind) : Prop :=
  forall l,
    Permutation (argsort l) (seq 0 (List.length l)) /\
    StronglySorted (fun i j => key_at l i <= key_at l j) (argsort l).

(** A kind is stable when the positions that hold equal values come out
    in increasing order. *)
Definition stable (argsort : sort_kind) : Prop :=
  forall l q,
    filter (fun i => Qeq_bool (key_at l i) q) (argsort l) =
    filter (fun i => Qeq_bool (key_at l i) q) (seq 0 (List.length l)).

(** Insertion of position [i] in front of the first position [j] with
    [before i j]. *)
Fixpoint insert_by (before : nat -> nat -> bool) (i : nat) (s : list nat) : list nat :=
  match s with
  | [] => [i]
  | j :: s' => if before i j then i :: s else j :: insert_by before i s'
  end.

Definition insertion_argsort (before : list Q -> nat -> nat -> bool) : sort_kind :=
  fun l => fold_right (insert_by (before l)) [] (seq 0 (List.length l)).

(** [i] goes in front of the positions of value at least its own: ties
    keep their order. *)
Definition before_le (l : list Q) (i j : nat) : bool :=
  Qle_bool (key_at l i) (key_at l j).

(** [i] goes in front of the positions of value above its own only: ties
    are reversed. *)
Definition before_lt (l : list Q) (i j : nat) : bool :=
  negb (Qle_bool (key_at l j) (key_at l i)).

(* ================================================================= *)
(** ** Data frames

    A frame is a list of rows in listing order.  A row carries its index
    label (its position in the list of dicts the frame was built from)
    and its [name]; the float columns are the cells of the row.
    [columns] lists the float columns in column order.  The other
    columns of the program's frames ([id], [position], [experience],
    [rank], and [Email], [Position], [Experience (Years)] in the export)
    hold no scores and are not cells; scores are assumed not to be filed
    under one of those names. *)

Record Row : Type := {
  r_index : nat;
  r_name : string;
  r_cells : dict cell
}.

Record DataFrame : Type := {
  columns : list string;
  rows : list Row
}.

(** The cell of row [r] in column [c]. *)
Definition loc (r : Row) (c : string) : cell :=
  match dict_get c (r_cells r) with Some v => v | None => NaN end.

(** [df[c]]: [KeyError] unless [c] is a column. *)
Definition getcol (df : DataFrame) (c : string) : result (list cell) :=
  if mem c (columns df) then Ok (map (fun r => loc r c) (rows df))
  else Raise (KeyError c).

(** [df[cols]] for a list of labels. *)
Fixpoint check_cols (df : DataFrame) (cols : list string) : result unit :=
  match cols with
  | [] => Ok tt
  | c :: cols' => _ <- getcol df c ;; check_cols df cols'
  end.

Definition set_cell (c : string) (v : cell) (r : Row) : Row :=
  {| r_index := r_index r; r_name := r_name r;
     r_cells := dict_set c v (r_cells r) |}.

(** [df[c] = f(row)], element by element: a new column goes last. *)
Definition assign (df : DataFrame) (c : string) (f : Row -> cell) : DataFrame :=
  {| columns := if mem c (columns df) then columns df else columns df ++ [c];
     rows := map (fun r => set_cell c (f r) r) (rows df) |}.

(** The keys of a list of dicts, in order of first appearance. *)
Definition add_key (cols : list string) (k : string) : list string :=
  if mem k cols then cols else cols ++ [k].

Definition first_seen (ds : list (list string)) : list string :=
  fold_left (fun cols ks => fold_left add_key ks cols) ds [].

Definition cell_of (d : dict cell) (c : string) : cell :=
  match dict_get c d with Some v => v | None => NaN end.

(** [pd.DataFrame(records)]: one row per record, index [0..n-1], columns
    in order of first appearance, NaN where a record lacks the key. *)
Definition frame_of (records : list (string * dict cell)) : DataFrame :=
  let cols := first_seen (map (fun rec => keys (snd rec)) records) in
  {| columns := cols;
     rows := map (fun ir =>
                    {| r_index := fst ir;
                       r_name := fst (snd ir);
                       r_cells := map (fun c => (c, cell_of (snd (snd ir)) c)) cols |})
                 (combine (seq 0 (List.length records)) records) |}.

(** [df.head(n)] for [n >= 0]. *)
Definition head (n : nat) (df : DataFrame) : DataFrame :=
  {| columns := columns df; rows := firstn n (rows df) |}.

(** [l[idx]]: the elements of [l] at the positions [idx]. *)
Definition take {A} (l : list A) (idx : list nat) : list A :=
  flat_map (fun i => match nth_error l i with Some x => [x] | None => [] end) idx.

(** Whether the element at position [i] of [l] satisfies [P]. *)
Definition at_pos {A} (l : list A) (P : A -> bool) (i : nat) : bool :=
  match nth_error l i with Some x => P x | None => false end.

(** The row order of [sort_values(ascending=False, na_position='last')]:
    the rows with a value are reversed, sorted in ascending order by the
    kind, reversed again; the rows with NaN follow in listing order. *)
Definition sort_rows_desc (K : sort_kind) (key : Row -> cell) (rs : list Row) : list Row :=
  let non_nans := filter (fun r => notna (key r)) rs in
  let nans := filter (fun r => isna (key r)) rs in
  let rv := rev non_nans in
  rev (take rv (K (map (fun r => value_of (key r)) rv))) ++ nans.

Definition sort_values (K : sort_kind) (by_ : string) (df : DataFrame) : result DataFrame :=
  _ <- getcol df by_ ;;
  Ok {| columns := columns df;
        rows := sort_rows_desc K (fun r => loc r by_) (rows df) |}.

(* ================================================================= *)
(** ** The repository ([src.data]) and the session selector *)

Record Session : Type := {
  s_id : nat;
  s_name : string;
  s_interviewer : string;
  s_date : option string
}.

Record Candidate : Type := {
  c_id : nat;
  c_name : string;
  c_email : option string;
  c_position : option string;
  c_experience_years : option nat
}.

Record Score : Type := {
  sc_metric : string;
  sc_value : Q
}.

Record Repository : Type := {
  list_sessions : list Session;
  list_candidates : nat -> list Candidate;
  get_scores_for_candidate : nat -> list Score
}.

Definition session_label (s : Session) : string :=
  (s_name s ++ " (" ++ match s_date s with Some d => d | None => "N/A" end ++ ")")%string.

Definition session_options (sessions : list Session) : dict nat :=
  fold_left (fun d s => dict_set (session_label s) (s_id s) d) sessions [].

(** [d[k]] on a dict. *)
Definition getitem {V} (k : string) (d : dict V) : result V :=
  match dict_get k d with Some v => Ok v | None => Raise (KeyError k) end.

(** [{s['metric']: s['value'] for s in scores}] *)
Definition score_dict (scores : list Score) : dict cell :=
  fold_left (fun d s => dict_set (sc_metric s) (Num (sc_value s)) d) scores [].

(** The loop that keeps the candidates with at least one score
    (lines 105-111, 172-184, 287-293). *)
Definition scored_records (repo : Repository) (candidates : list Candidate)
  : list (string * dict cell) :=
  flat_map (fun cand =>
              match get_scores_for_candidate repo (c_id cand) with
              | [] => []
              | scores => [(c_name cand, score_dict scores)]
              end) candidates.

(* ================================================================= *)
(** ** Analytics dashboard ([show_analytics_dashboard]) *)

Definition not_in (reserved : list string) (c : string) : bool := negb (mem c reserved).

(** [df.mean()] and [df.max()]: one value per column. *)
Definition column_means (df : DataFrame) (cols : list string) : list cell :=
  map (fun c => series_mean (map (fun r => loc r c) (rows df))) cols.

Definition column_maxes (df : DataFrame) (cols : list string) : list cell :=
  map (fun c => series_max (map (fun r => loc r c) (rows df))) cols.

(** [df_scores.drop('candidate_name', axis=1).mean().mean()
      if len(df_scores) > 0 else 0] *)
Definition avg_total (df_scores : DataFrame) : cell :=
  if Nat.ltb 0 (List.length (rows df_scores))
  then series_mean (column_means df_scores
                      (filter (not_in ["candidate_name"%string]) (columns df_scores)))
  else Num 0.

(** [df_scores.drop('candidate_name', axis=1).max().max()
      if len(df_scores) > 0 else 0] *)
Definition top_score (df_scores : DataFrame) : cell :=
  if Nat.ltb 0 (List.length (rows df_scores))
  then series_max (column_maxes df_scores
                     (filter (not_in ["candidate_name"%string]) (columns df_scores)))
  else Num 0.

(** [len([c for c in candidates if data.get_scores_for_candidate(c['id'])])] *)
Definition completed (repo : Repository) (candidates : list Candidate) : nat :=
  List.length (filter (fun c => match get_scores_for_candidate repo (c_id c) with
                                | [] => false | _ => true end) candidates).

(** What the page shows: an information message, or the four key
    metrics (the charts that follow are drawn by the plotting module). *)
Inductive dashboard_view : Type :=
| DashInfo (msg : string)
| DashMetrics (total_candidates : nat) (average : cell) (evaluated : nat) (highest : cell).

Definition show_analytics_dashboard (repo : Repository)
    (selectbox : list string -> string) : result dashboard_view :=
  let sessions := list_sessions repo in
  match sessions with
  | [] => Ok (DashInfo "No sessions available. Create an interview session first.")
  | _ =>
      let options := session_options sessions in
      let selected_session := selectbox (keys options) in
      session_id <- getitem selected_session options ;;
      let candidates := list_candidates repo session_id in
      match candidates with
      | [] => Ok (DashInfo "No candidates in this session yet.")
      | _ =>
          let total_candidates := List.length candidates in
          let all_scores := scored_records repo candidates in
          match all_scores with
          | [] => Ok (DashInfo "No scores recorded yet. Start evaluating candidates.")
          | _ =>
              let df_scores := frame_of all_scores in
              Ok (DashMetrics total_candidates (avg_total df_scores)
                    (completed repo candidates) (top_score df_scores))
          end
      end
  end.

(* ================================================================= *)
(** ** Ranking ([show_ranking_module]) *)

Inductive method : Type := SingleMetric | WeightedAverage | CompositeScore.

(** The values of the widgets of the ranking page. *)
Record config : Type := {
  ranking_metric : string;
  top_n : nat;
  normalize : bool;
  weight_method : method;
  weights : dict Q
}.

(** One line of the ranking table: [rank], [name], the score column,
    and the metric columns shown next to it. *)
Record Ranked : Type := {
  rk_rank : nat;
  rk_index : nat;
  rk_name : string;
  rk_score : cell;
  rk_values : list (string * cell)
}.

(** [df_ranked['rank'] = range(1, len(df_ranked) + 1)] followed by the
    selection of the displayed columns.  The rank is kept apart from the
    cells of the row: a score filed under the name [rank] would be
    overwritten by this assignment, and is outside the embedding (see
    the note on the column names above and [page_columns]). *)
Definition ranked_table (score_col : string) (cols : list string) (df_ranked : DataFrame)
  : list Ranked :=
  map (fun kr =>
         {| rk_rank := fst kr;
            rk_index := r_index (snd kr);
            rk_name := r_name (snd kr);
            rk_score := loc (snd kr) score_col;
            rk_values := map (fun m => (m, loc (snd kr) m)) cols |})
      (combine (seq 1 (List.length (rows df_ranked))) (rows df_ranked)).

(** Lines 220-223. *)
Definition rank_single (K : sort_kind) (df : DataFrame) (ranking_metric : string)
    (top_n : nat) : result (list Ranked) :=
  sorted <- sort_values K ranking_metric df ;;
  Ok (ranked_table ranking_metric [] (head top_n sorted)).

(** [weights.get(metric, 1.0)] *)
Definition weights_get (weights : dict Q) (metric : string) : Q :=
  match dict_get metric weights with Some w => w | None => 1 end.

(** [sum(df[metric] * weights.get(metric, 1.0) for metric in metrics)],
    for one row: Python's [sum] starts from [0] and adds from the left. *)
Definition weighted_score (metrics : list string) (weights : dict Q) (r : Row) : cell :=
  fold_left (fun acc metric => cadd acc (cmul (loc r metric) (Num (weights_get weights metric))))
            metrics (Num 0).

(** Lines 225-229. *)
Definition rank_weighted (K : sort_kind) (df : DataFrame) (metrics : list string)
    (weights : dict Q) (top_n : nat) : result (list Ranked) :=
  _ <- check_cols df metrics ;;
  let df := assign df "weighted_score" (weighted_score metrics weights) in
  sorted <- sort_values K "weighted_score" df ;;
  Ok (ranked_table "weighted_score" metrics (head top_n sorted)).

(** [(v - min) / (max - min)] *)
Definition norm_cell (v mn mx : cell) : cell := cdiv (csub v mn) (csub mx mn).

Definition norm_name (metric : string) : string := (metric ++ "_norm")%string.

(** One turn of the loop of lines 233-234. *)
Definition normalize_col (df : DataFrame) (metric : string) : result DataFrame :=
  s <- getcol df metric ;;
  let mn := series_min s in
  let mx := series_max s in
  Ok (assign df (norm_name metric) (fun r => norm_cell (loc r metric) mn mx)).

Fixpoint normalize_all (metrics : list string) (df : DataFrame) : result DataFrame :=
  match metrics with
  | [] => Ok df
  | metric :: rest => df' <- normalize_col df metric ;; normalize_all rest df'
  end.

(** [df[composite_cols].mean(axis=1)], for one row: NaN is skipped. *)
Definition row_mean (composite_cols : list string) (r : Row) : cell :=
  series_mean (map (loc r) composite_cols).

(** Lines 231-239: the frame with its [composite_score] column. *)
Definition composite_frame (df : DataFrame) (metrics : list string) (normalize : bool)
  : result DataFrame :=
  dc <- (if normalize
         then df' <- normalize_all metrics df ;; Ok (df', map norm_name metrics)
         else Ok (df, metrics)) ;;
  _ <- check_cols (fst dc) (snd dc) ;;
  Ok (assign (fst dc) "composite_score" (row_mean (snd dc))).

(** Lines 231-242. *)
Definition rank_composite (K : sort_kind) (df : DataFrame) (metrics : list string)
    (normalize : bool) (top_n : nat) : result (list Ranked) :=
  df2 <- composite_frame df metrics normalize ;;
  sorted <- sort_values K "composite_score" df2 ;;
  Ok (ranked_table "composite_score" metrics (head top_n sorted)).

(** Line 191. *)
Definition reserved : list string :=
  ["id"; "name"; "position"; "experience"]%string.

Definition metrics_of (df : DataFrame) : list string :=
  filter (not_in reserved) (columns df).

(** Lines 219-242: the method chosen by the radio button. *)
Definition rank_by (K : sort_kind) (df : DataFrame) (metrics : list string) (cfg : config)
  : result (list Ranked) :=
  match weight_method cfg with
  | SingleMetric => rank_single K df (ranking_metric cfg) (top_n cfg)
  | WeightedAverage => rank_weighted K df metrics (weights cfg) (top_n cfg)
  | CompositeScore => rank_composite K df metrics (normalize cfg) (top_n cfg)
  end.

Inductive ranking_view : Type :=
| RankInfo (msg : string)
| RankTable (table : list Ranked).

Definition show_ranking_module (K : sort_kind) (repo : Repository)
    (selectbox : list string -> string) (cfg : config) : result ranking_view :=
  let sessions := list_sessions repo in
  match sessions with
  | [] => Ok (RankInfo "No sessions available.")
  | _ =>
      let options := session_options sessions in
      let selected_session := selectbox (keys options) in
      session_id <- getitem selected_session options ;;
      let candidates := list_candidates repo session_id in
      match candidates with
      | [] => Ok (RankInfo "No candidates in this session.")
      | _ =>
          let candidate_data := scored_records repo candidates in
          match candidate_data with
          | [] => Ok (RankInfo "No scores recorded. Score candidates first.")
          | _ =>
              let df := frame_of candidate_data in
              let metrics := metrics_of df in
              match metrics with
              | [] => Ok (RankInfo "No metrics available.")
              | _ => table <- rank_by K df metrics cfg ;; Ok (RankTable table)
              end
          end
      end
  end.

(* ================================================================= *)
(** ** Export ([show_data_management], lines 354-381) *)

(** The score cells of one export row: the candidate's scores, or
    [None] under every registry metric when the candidate has none.
    [None] and a missing key are both a missing cell of the frame. *)
Definition export_cells (METRICS : list string) (scores : list Score) : dict cell :=
  match scores with
  | [] => fold_left (fun row metric => dict_set metric NaN row) METRICS []
  | _ => score_dict scores
  end.

Definition export_data (METRICS : list string) (repo : Repository)
    (candidates : list Candidate) : list (string * dict cell) :=
  map (fun cand =>
         (c_name cand, export_cells METRICS (get_scores_for_candidate repo (c_id cand))))
      candidates.

Definition export_df (METRICS : list string) (repo : Repository) (session_id : nat)
  : DataFrame :=
  frame_of (export_data METRICS repo (list_candidates repo session_id)).

(** One field of [to_csv]: a missing cell is written as [na_rep], the
    empty string; a number is written by the float formatter. *)
Definition csv_field (float_repr : Q -> string) (c : cell) : string :=
  match c with NaN => EmptyString | Num q => float_repr q end.

Definition csv_cells (float_repr : Q -> string) (df : DataFrame) : list (list string) :=
  map (fun r => map (fun c => csv_field float_repr (loc r c)) (columns df)) (rows df).

(* ================================================================= *)
(** ** Reading the ranking table *)

(** [table] ranks the rows [picked], in that order, with the score
    [score]: ranks [1..], the index label and the name of each row, its
    score. *)
Definition ranks (score : Row -> cell) (picked : list Row) (table : list Ranked) : Prop :=
  map rk_rank table = seq 1 (List.length picked) /\
  map rk_index table = map r_index picked /\
  map rk_name table = map r_name picked /\
  map rk_score table = map score picked.

(** A score column in non-increasing order with its NaN at the end. *)
Definition desc_nan_last (scores : list cell) : Prop :=
  exists nums k,
    scores = map Num nums ++ repeat NaN k /\
    StronglySorted (fun x y => y <= x) nums.

(** Non-increasing in the sense of the comparison of floats. *)
Definition sorted_ge (scores : list cell) : Prop :=
  StronglySorted (fun a b => cge a b = true) scores.

(** The frame has the index [0..n-1] of a frame built from a list of
    records, and the listed columns. *)
Definition range_index (df : DataFrame) : Prop :=
  map r_index (rows df) = seq 0 (List.length (rows df)).

Definition has_columns (df : DataFrame) (cols : list string) : bool :=
  forallb (fun c => mem c (columns df)) cols.

(** The row of the frame with a given index label. *)
Definition row_of (df : DataFrame) (i : nat) : option Row :=
  find (fun r => Nat.eqb (r_index r) i) (rows df).

(** Candidates of the result that share a score come in listing order. *)
Definition ties_in_listing_order (table : list Ranked) : Prop :=
  forall i j e1 e2,
    nth_error table i = Some e1 -> nth_error table j = Some e2 ->
    same_score (rk_score e1) (rk_score e2) = true ->
    (rk_index e1 < rk_index e2)%nat -> (i < j)%nat.

(** The weighted sum with missing values counted as zero. *)
Definition zero_fill_score (metrics : list string) (weights : dict Q) (r : Row) : Q :=
  Qsum (map (fun m => value_of (loc r m) * weights_get weights m) metrics).

Definition all_present (metrics : list string) (r : Row) : bool :=
  forallb (fun m => notna (loc r m)) metrics.

(* ================================================================= *)
(** ** Example data *)

(** Two kinds that meet the contract, for the examples: one keeps the
    ties in order, the other reverses them.  Neither is the algorithm
    numpy runs, which depends on its version and on the processor; they
    show what the contract allows. *)
Definition stable_kind : sort_kind := insertion_argsort before_le.
Definition reversing_kind : sort_kind := insertion_argsort before_lt.

(** Three fully scored candidates; A and B tie on Technical Skills. *)
Definition records_ABC : list (string * dict cell) :=
  [("A", [("Technical Skills", Num 8); ("Communication", Num 6)]);
   ("B", [("Technical Skills", Num 8); ("Communication", Num 9)]);
   ("C", [("Technical Skills", Num 5); ("Communication", Num 7)])]%string.

(** D has no Communication score. *)
Definition records_AD : list (string * dict cell) :=
  [("A", [("Technical Skills", Num 8); ("Communication", Num 6)]);
   ("D", [("Technical Skills", Num 9)])]%string.

(** A and B have the same Technical Skills score: the column is constant. *)
Definition records_AB : list (string * dict cell) :=
  [("A", [("Technical Skills", Num 8); ("Communication", Num 6)]);
   ("B", [("Technical Skills", Num 8); ("Communication", Num 9)])]%string.

Definition two_metrics : list string := ["Technical Skills"; "Communication"]%string.

Definition half_weights : dict Q :=
  [("Technical Skills", 1); ("Communication", 1 # 2)]%string.

(* ================================================================= *)
(** ** The sentence of the specification on the weighted sum, as stated *)


(* ================================================================= *)
(** ** Reading the normalized frame *)

(** The column [c] of a frame. *)
Definition col (df : DataFrame) (c : string) : list cell :=
  map (fun r => loc r c) (rows df).

(** The min-max scaled value of row [r] for [metric], with the minimum
    and the maximum of the column of [df]. *)
Definition norm_value (df : DataFrame) (metric : string) (r : Row) : cell :=
  norm_cell (loc r metric) (series_min (col df metric)) (series_max (col df metric)).

(** The column has no spread: its maximum equals its minimum (or it has
    no value at all). *)
Definition constant_col (df : DataFrame) (metric : string) : bool :=
  match series_min (col df metric), series_max (col df metric) with
  | Num mn, Num mx => Qeq_bool (mx - mn) 0
  | _, _ => true
  end.

(** No metric is called like the normalized column of a metric. *)
Definition norm_fresh (metrics : list string) : bool :=
  forallb (fun m => negb (mem (norm_name m) metrics)) metrics.

(** The row [r] after the loop of lines 233-234. *)
Definition norm_row (df : DataFrame) (metrics : list string) (r : Row) : Row :=
  fold_left (fun r' metric =>
               set_cell (norm_name metric)
                        (norm_cell (loc r' metric) (series_min (col df metric))
                                   (series_max (col df metric))) r')
            metrics r.

(** The value that enters the composite mean for a metric, and whether
    it is counted: the candidate has the metric and, with
    normalization, the column is not constant. *)
Definition composite_value (df : DataFrame) (normalize : bool) (r : Row) (metric : string) : cell :=
  if normalize then norm_value df metric r else loc r metric.

Definition counted (df : DataFrame) (normalize : bool) (r : Row) (metric : string) : bool :=
  notna (loc r metric) && (negb normalize || negb (constant_col df metric)).

(* ================================================================= *)
(** ** The sentences of the specification on exclusion, order, ties and
    normalization, as stated *)

(** Single Metric: no returned candidate lacks the chosen metric. *)
Definition single_excludes_unscored_claim (K : sort_kind) (df : DataFrame)
    (metric : string) (n : nat) : Prop :=
  forall table, rank_single K df metric n = Ok table ->
  forall e r, In e table -> row_of df (rk_index e) = Some r -> loc r metric <> NaN.

(** The candidates a method can rank, in the words of the specification:
    Single Metric cannot rank a candidate without the chosen metric; the
    other two methods rank every candidate of the table. *)
Definition rankable (cfg : config) (r : Row) : bool :=
  match weight_method cfg with
  | SingleMetric => notna (loc r (ranking_metric cfg))
  | _ => true
  end.

(** The other reading: every candidate of the table can be ranked. *)
Definition every_row (cfg : config) (r : Row) : bool := true.

(** The common post-condition of the three methods, for a reading
    [can_rank] of "rankable". *)
Definition common_postcondition_claim (can_rank : config -> Row -> bool) (K : sort_kind)
    (df : DataFrame) (metrics : list string) (cfg : config) : Prop :=
  forall table, rank_by K df metrics cfg = Ok table ->
    List.length table = Nat.min (top_n cfg) (List.length (filter (can_rank cfg) (rows df))) /\
    map rk_rank table = seq 1 (List.length table) /\
    sorted_ge (map rk_score table).

(** Ties keep the listing order, whatever the sort kind does. *)
Definition tie_break_claim (df : DataFrame) (metrics : list string) (cfg : config) : Prop :=
  forall K table, sorts K -> rank_by K df metrics cfg = Ok table ->
    ties_in_listing_order table.

(** A constant column is normalized to 0.0. *)
Definition constant_column_zero_claim (df : DataFrame) (metrics : list string) : Prop :=
  forall df', normalize_all metrics df = Ok df' ->
  forall m, In m metrics ->
    ceq (series_max (col df m)) (series_min (col df m)) ->
    forall r', In r' (rows df') -> ceq (loc r' (norm_name m)) (Num 0).

(** The composite score in the words of the specification: the mean,
    over the metrics the candidate has a value for, of the raw value or
    of the scaled value; [tied] is the scaled value on a constant column
    (0.0 in the specification). *)
Definition norm_spec (tied : Q) (df : DataFrame) (metric : string) (r : Row) : Q :=
  if constant_col df metric then tied
  else (value_of (loc r metric) - value_of (series_min (col df metric)))
       / (value_of (series_max (col df metric)) - value_of (series_min (col df metric))).

Definition composite_spec (tied : Q) (df : DataFrame) (metrics : list string)
    (normalize : bool) (r : Row) : cell :=
  mean_of (map (fun m => if normalize then norm_spec tied df m r else value_of (loc r m))
               (filter (fun m => notna (loc r m)) metrics)).

Definition composite_mean_claim (tied : Q) (K : sort_kind) (df : DataFrame)
    (metrics : list string) (normalize : bool) (n : nat) : Prop :=
  forall table, rank_composite K df metrics normalize n = Ok table ->
  forall e r, In e table -> row_of df (rk_index e) = Some r ->
    ceq (rk_score e) (composite_spec tied df metrics normalize r).

(** Widget values for the examples. *)
Definition single_cfg (metric : string) (n : nat) : config :=
  {| ranking_metric := metric; top_n := n; normalize := false;
     weight_method := SingleMetric; weights := [] |}.

Definition composite_cfg (nz : bool) (n : nat) : config :=
  {| ranking_metric := "Technical Skills"; top_n := n; normalize := nz;
     weight_method := CompositeScore; weights := [] |}.

(* ================================================================= *)
(** ** Reading the dashboard and the export *)

(** No candidate of the list has a score. *)
Definition no_scores (repo : Repository) (candidates : list Candidate) : Prop :=
  forall c, In c candidates -> get_scores_for_candidate repo (c_id c) = [].

(** The session the select box resolves to. *)
Definition selected_session (repo : Repository) (selectbox : list string -> string)
  : result nat :=
  let options := session_options (list_sessions repo) in
  getitem (selectbox (keys options)) options.

(** The select box shows its first option until the user picks one. *)
Definition first_option (options : list string) : string :=
  match options with [] => EmptyString | o :: _ => o end.

(** The score columns of the dashboard frame and all their present
    values. *)
Definition score_columns (df : DataFrame) : list string :=
  filter (not_in ["candidate_name"%string]) (columns df).

Definition all_values (df : DataFrame) (cols : list string) : list Q :=
  flat_map (fun c => present (col df c)) cols.

(** The mean of the present values of one column. *)
Definition column_mean (df : DataFrame) (c : string) : Q :=
  Qsum (present (col df c)) / inject_Z (Z.of_nat (List.length (present (col df c)))).

Definition has_value (df : DataFrame) (c : string) : bool :=
  match present (col df c) with [] => false | _ => true end.

(** [c] is the maximum of the list: NaN for the empty list. *)
Definition is_max (c : cell) (l : list Q) : Prop :=
  match c with
  | NaN => l = []
  | Num M => In M l /\ forall v, In v l -> v <= M
  end.

(** The distinct elements of a list, each at its first occurrence. *)
Fixpoint first_occurrences (l : list string) : list string :=
  match l with
  | [] => []
  | x :: l' => x :: filter (fun y => negb (String.eqb x y)) (first_occurrences l')
  end.

(** The metrics in the order in which the scores are read: candidate by
    candidate, score by score. *)
Definition observed_metrics (repo : Repository) (candidates : list Candidate) : list string :=
  flat_map (fun cand => map sc_metric (get_scores_for_candidate repo (c_id cand))) candidates.

(** The same for the export, where a candidate without scores stands for
    the whole registry. *)
Definition exported_metrics (METRICS : list string) (repo : Repository)
    (candidates : list Candidate) : list string :=
  flat_map (fun cand =>
              match get_scores_for_candidate repo (c_id cand) with
              | [] => METRICS
              | scores => map sc_metric scores
              end) candidates.

(** The columns are those of the registry that occur, in the order of
    the registry. *)
Definition in_registry_order (METRICS cols : list string) : Prop :=
  cols = filter (fun m => mem m cols) METRICS.

(** The average of the dashboard is the mean of all present values, and
    its maximum the maximum of all present values. *)
Definition dashboard_mean_claim (repo : Repository) (selectbox : list string -> string)
  : Prop :=
  forall sid n a k t,
    selected_session repo selectbox = Ok sid ->
    show_analytics_dashboard repo selectbox = Ok (DashMetrics n a k t) ->
    let df := frame_of (scored_records repo (list_candidates repo sid)) in
    ceq a (mean_of (all_values df (score_columns df))) /\
    is_max t (all_values df (score_columns df)).

(** The active metrics and the export columns follow the registry. *)
Definition registry_order_claim (METRICS : list string) (repo : Repository) (sid : nat)
  : Prop :=
  in_registry_order METRICS
    (metrics_of (frame_of (scored_records repo (list_candidates repo sid)))) /\
  in_registry_order METRICS (columns (export_df METRICS repo sid)).

(** A session with two candidates; B has no Communication score. *)
Definition one_session : list Session :=
  [{| s_id := 1; s_name := "Backend"; s_interviewer := "Kim"; s_date := Some "2024-05-02"%string |}].

Definition cand (id : nat) (name : string) : Candidate :=
  {| c_id := id; c_name := name; c_email := None; c_position := None;
     c_experience_years := None |}.

Definition repo_uneven : Repository :=
  {| list_sessions := one_session;
     list_candidates := fun sid => match sid with 1%nat => [cand 1 "A"; cand 2 "B"] | _ => [] end;
     get_scores_for_candidate := fun cid =>
       match cid with
       | 1%nat => [{| sc_metric := "Technical Skills"; sc_value := 10 |};
                   {| sc_metric := "Communication"; sc_value := 0 |}]
       | 2%nat => [{| sc_metric := "Technical Skills"; sc_value := 10 |}]
       | _ => []
       end |}.

(** The first candidate is scored on Communication only, the second on
    both metrics, each in registry order. *)
Definition registry : list string := ["Technical Skills"; "Communication"]%string.

Definition repo_late_metric : Repository :=
  {| list_sessions := one_session;
     list_candidates := fun sid => match sid with 1%nat => [cand 1 "A"; cand 2 "B"] | _ => [] end;
     get_scores_for_candidate := fun cid =>
       match cid with
       | 1%nat => [{| sc_metric := "Communication"; sc_value := 7 |}]
       | 2%nat => [{| sc_metric := "Technical Skills"; sc_value := 8 |};
                   {| sc_metric := "Communication"; sc_value := 6 |}]
       | _ => []
       end |}.

(** Every recorded score is zero. *)
Definition repo_zero : Repository :=
  {| list_sessions := one_session;
     list_candidates := fun sid => match sid with 1%nat => [cand 1 "A"] | _ => [] end;
     get_scores_for_candidate := fun cid =>
       match cid with
       | 1%nat => [{| sc_metric := "Technical Skills"; sc_value := 0 |}]
       | _ => []
       end |}.

(** Candidates, but no score yet. *)
Definition repo_unscored : Repository :=
  {| list_sessions := one_session;
     list_candidates := fun sid => match sid with 1%nat => [cand 1 "A"] | _ => [] end;
     get_scores_for_candidate := fun _ => [] |}.

(* ================================================================= *)
(** ** Further readings of the pages *)

(** The last session of the list that carries the label. *)
Definition last_with_label (sessions : list Session) (label : string) : option Session :=
  find (fun s => String.eqb (session_label s) label) (rev sessions).

(** The last score of the list filed under the metric. *)
Definition last_score (scores : list Score) (metric : string) : option Q :=
  option_map sc_value (find (fun s => String.eqb (sc_metric s) metric) (rev scores)).

(** The candidate has at least one score. *)
Definition is_scored (repo : Repository) (c : Candidate) : bool :=
  match get_scores_for_candidate repo (c_id c) with [] => false | _ => true end.

(** [df[df['name'] == selected_candidate].iloc[0]] (lines 261-262 and
    321-322): the first row with that name.  [None] stands for the
    [IndexError] that [iloc[0]] raises on an empty selection. *)
Definition radar_row (df : DataFrame) (selected_candidate : string) : option Row :=
  find (fun r => String.eqb (r_name r) selected_candidate) (rows df).

(** Row [r1] has at least the value of row [r2] on every metric. *)
Definition dominates (metrics : list string) (r1 r2 : Row) : Prop :=
  forall m, In m metrics -> value_of (loc r2 m) <= value_of (loc r1 m).

(** The sliders of line 217 give weights in [0, 1]; only their sign
    matters here. *)
Definition nonneg_weights (metrics : list string) (weights : dict Q) : Prop :=
  forall m, In m metrics -> 0 <= weights_get weights m.


(** A cell is missing or lies in [a, b]. *)
Definition nan_or_within (a b : Q) (c : cell) : Prop :=
  match c with NaN => True | Num q => a <= q <= b end.

(** Two sessions with the same name and date, for the examples. *)
Definition twin_sessions : list Session :=
  [{| s_id := 1; s_name := "Backend"; s_interviewer := "Kim"; s_date := Some "2024-05-02"%string |};
   {| s_id := 2; s_name := "Backend"; s_interviewer := "Lee"; s_date := Some "2024-05-02"%string |}].

(* ================================================================= *)
(** ** Data management page ([show_data_management], lines 332-405) *)

(** The session dict has the [date] key ([s_date s = None] is a dict
    without the key, the case of [s.get('date', 'N/A')]). *)
Definition has_date (s : Session) : bool :=
  match s_date s with Some _ => true | None => false end.

(** [pd.DataFrame(sessions)[['name', 'interviewer', 'date']]] (lines
    344-345): the frame has a [date] column when at least one session
    dict has the key; selecting a column that does not exist raises
    [KeyError]. *)
Definition sessions_table (sessions : list Session)
  : result (list (string * string * option string)) :=
  if existsb has_date sessions
  then Ok (map (fun s => (s_name s, s_interviewer s, s_date s)) sessions)
  else Raise (KeyError "date").

(** [sum(len(data.list_candidates(s['id'])) for s in sessions)] *)
Definition total_candidates (repo : Repository) : nat :=
  list_sum (map (fun s => List.length (list_candidates repo (s_id s))) (list_sessions repo)).

(** What the page shows: a message, or the sessions table, the export
    table of the selected session and the three statistics.
    [count_scores] is the answer of the database to
    [SELECT COUNT( * ) FROM scores]. *)
Inductive management_view : Type :=
| MgmtInfo (msg : string)
| MgmtPage (sessions_shown : list (string * string * option string))
           (export : DataFrame)
           (total_sessions total_candidates total_scores : nat).

Definition show_data_management (METRICS : list string) (repo : Repository)
    (selectbox : list string -> string) (count_scores : nat) : result management_view :=
  let sessions := list_sessions repo in
  match sessions with
  | [] => Ok (MgmtInfo "No sessions available.")
  | _ =>
      shown <- sessions_table sessions ;;
      let options := session_options sessions in
      let selected_session := selectbox (keys options) in
      session_id <- getitem selected_session options ;;
      Ok (MgmtPage shown (export_df METRICS repo session_id)
                   (List.length sessions) (total_candidates repo) count_scores)
  end.

(** A session stored without a date. *)
Definition undated_session : list Session :=
  [{| s_id := 1; s_name := "Backend"; s_interviewer := "Kim"; s_date := None |}].

(* ================================================================= *)
(** ** Readings for the weighted sum, the order of the result, the
    select box and the displayed columns *)


(** What every sort kind guarantees about the order of the result: a
    higher score comes before a lower one, a numeric score before a
    missing one, and the missing scores come in listing order.  Nothing
    is said of two equal numeric scores. *)
Definition ordered_up_to_ties (table : list Ranked) : Prop :=
  forall i j e1 e2,
    nth_error table i = Some e1 -> nth_error table j = Some e2 ->
    match rk_score e1, rk_score e2 with
    | Num x, Num y => y < x -> (i < j)%nat
    | Num _, NaN => (i < j)%nat
    | NaN, NaN => (rk_index e1 < rk_index e2)%nat -> (i < j)%nat
    | NaN, Num _ => True
    end.


(** The names the ranking page gives to its own columns.  A metric filed
    under one of them is overwritten by the page (lines 222, 226, 228,
    239, 241) or left out of the active metrics (line 191). *)
Definition page_columns : list string :=
  "rank"%string :: "weighted_score"%string :: "composite_score"%string :: reserved.

(** B and A have a Communication score, D1 and D2 have none. *)
Definition records_mixed : list (string * dict cell) :=
  [("B", [("Technical Skills", Num 5); ("Communication", Num 9)]);
   ("D1", [("Technical Skills", Num 9)]);
   ("A", [("Technical Skills", Num 8); ("Communication", Num 6)]);
   ("D2", [("Technical Skills", Num 7)])]%string.

(** A kind that reverses the ties of the values picked by [reversed]
    and keeps the other ties in order. *)
Definition before_tie (reversed : Q -> bool) (l : list Q) (i j : nat) : bool :=
  if reversed (key_at l i) then before_lt l i j else before_le l i j.

Definition tie_kind (reversed : Q -> bool) : sort_kind :=
  insertion_argsort (before_tie reversed).

(** The names of a ranking, in order. *)
Definition names_of (ranking : result (list Ranked)) : list string :=
  match ranking with Ok table => map rk_name table | Raise _ => [] end.

(** Two pairs of tied candidates on one metric: 5, 5, 8, 8 in listing
    order. *)
Definition records_ties : list (string * dict cell) :=
  [("A", [("Technical Skills", Num 5)]);
   ("B", [("Technical Skills", Num 5)]);
   ("C", [("Technical Skills", Num 8)]);
   ("D", [("Technical Skills", Num 8)])]%string.

(* ================================================================= *)
(** * Properties *)

(** ** Dicts and cells *)

Lemma dict_get_set_same {V} (k : string) (v : V) (d : dict V) :
  dict_get k (dict_set k v d) = Some v.
Proof.
  induction d as [|[k' v'] d IH]; simpl.
  - now rewrite String.eqb_refl.
  - destruct (String.eqb k' k) eqn:E; simpl; rewrite E; auto.
Qed.

Lemma dict_get_set_other {V} (k k' : string) (v : V) (d : dict V) :
  k <> k' -> dict_get k' (dict_set k v d) = dict_get k' d.
Proof.
  intros Hk. induction d as [|[k0 v0] d IH]; simpl.
  - destruct (String.eqb k k') eqn:E; auto.
    apply String.eqb_eq in E. contradiction.
  - destruct (String.eqb k0 k) eqn:E; simpl.
    + apply String.eqb_eq in E. subst k0.
      destruct (String.eqb k k') eqn:E'; auto.
      apply String.eqb_eq in E'. contradiction.
    + now rewrite IH.
Qed.

Lemma keys_dict_set {V} (k : string) (v : V) (d : dict V) :
  keys (dict_set k v d) = add_key (keys d) k.
Proof.
  unfold add_key, mem, keys. induction d as [|[k0 v0] d IH]; simpl; auto.
  rewrite (String.eqb_sym k k0).
  destruct (String.eqb k0 k) eqn:E; simpl; auto.
  rewrite IH. now destruct (existsb (String.eqb k) (map fst d)).
Qed.

Lemma mem_In (k : string) (l : list string) : mem k l = true <-> In k l.
Proof.
  unfold mem. rewrite existsb_exists. split.
  - intros [x [Hx E]]. apply String.eqb_eq in E. now subst.
  - intros H. exists k. split; auto. apply String.eqb_refl.
Qed.

Lemma mem_false (k : string) (l : list string) : mem k l = false <-> ~ In k l.
Proof.
  rewrite <- mem_In. destruct (mem k l); split; congruence.
Qed.

Lemma dict_get_None {V} (k : string) (d : dict V) :
  ~ In k (keys d) -> dict_get k d = None.
Proof.
  induction d as [|[k' v] d IH]; simpl; auto.
  intros H. destruct (String.eqb k' k) eqn:E.
  - apply String.eqb_eq in E. tauto.
  - apply IH. tauto.
Qed.

Lemma dict_get_In {V} (k : string) (d : dict V) :
  In k (keys d) -> exists v, dict_get k d = Some v /\ In (k, v) d.
Proof.
  induction d as [|[k' v] d IH]; simpl; [tauto|].
  intros H. destruct (String.eqb k' k) eqn:E.
  - apply String.eqb_eq in E. subst. eauto.
  - destruct H as [H|H]; [subst; now rewrite String.eqb_refl in E|].
    destruct (IH H) as [w [Hw Hin]]. eauto.
Qed.

Lemma loc_set_cell_same c v r : loc (set_cell c v r) c = v.
Proof. unfold loc, set_cell; simpl. now rewrite dict_get_set_same. Qed.

Lemma loc_set_cell_other c c' v r : c <> c' -> loc (set_cell c v r) c' = loc r c'.
Proof. intros H. unfold loc, set_cell; simpl. now rewrite dict_get_set_other. Qed.

Lemma isna_notna c : notna c = negb (isna c).
Proof. reflexivity. Qed.

Lemma ceq_refl c : ceq c c.
Proof. destruct c; simpl; auto. reflexivity. Qed.

Lemma ceq_sym a b : ceq a b -> ceq b a.
Proof. destruct a, b; simpl; auto. intros H; now symmetry. Qed.

Lemma ceq_trans a b c : ceq a b -> ceq b c -> ceq a c.
Proof. destruct a, b, c; simpl; auto; try tauto. intros H1 H2; now rewrite H1. Qed.

(** ** The two insertion kinds *)

Lemma insert_by_perm before i s : Permutation (insert_by before i s) (i :: s).
Proof.
  induction s as [|j s IH]; simpl; auto.
  destruct (before i j); auto.
  rewrite IH. apply perm_swap.
Qed.

Lemma insertion_argsort_perm before l :
  Permutation (insertion_argsort before l) (seq 0 (List.length l)).
Proof.
  unfold insertion_argsort. generalize (seq 0 (List.length l)) as idx.
  induction idx as [|i idx IH]; simpl; auto.
  rewrite insert_by_perm. now constructor.
Qed.

Section InsertSorted.
Variable l : list Q.
Variable before : nat -> nat -> bool.
Hypothesis before_true : forall i j, before i j = true -> key_at l i <= key_at l j.
Hypothesis before_false : forall i j, before i j = false -> key_at l j <= key_at l i.

Let R := fun i j => key_at l i <= key_at l j.

Lemma insert_by_sorted i s :
  StronglySorted R s -> StronglySorted R (insert_by before i s).
Proof.
  induction 1 as [|j s Hs IH Hj]; simpl.
  - repeat constructor.
  - destruct (before i j) eqn:E.
    + constructor; [now constructor|].
      apply before_true in E. constructor; auto.
      eapply Forall_impl; [|exact Hj]. unfold R. intros k Hk.
      eapply Qle_trans; eauto.
    + constructor; auto.
      apply before_false in E.
      eapply Permutation_Forall; [symmetry; apply insert_by_perm|].
      constructor; auto.
Qed.

Lemma fold_insert_sorted idx :
  StronglySorted R (fold_right (insert_by before) [] idx).
Proof.
  induction idx; simpl; [constructor|now apply insert_by_sorted].
Qed.
End InsertSorted.

Lemma before_le_sorts : sorts (insertion_argsort before_le).
Proof.
  intros l. split; [apply insertion_argsort_perm|].
  apply fold_insert_sorted; unfold before_le; intros i j H.
  - now apply Qle_bool_iff.
  - destruct (Qlt_le_dec (key_at l j) (key_at l i)) as [Hlt|Hle].
    + now apply Qlt_le_weak.
    + apply Qle_bool_iff in Hle. congruence.
Qed.

Lemma before_lt_sorts : sorts (insertion_argsort before_lt).
Proof.
  intros l. split; [apply insertion_argsort_perm|].
  apply fold_insert_sorted; unfold before_lt; intros i j H.
  - apply negb_true_iff in H.
    destruct (Qlt_le_dec (key_at l i) (key_at l j)) as [Hlt|Hle].
    + now apply Qlt_le_weak.
    + apply Qle_bool_iff in Hle. congruence.
  - apply negb_false_iff in H. now apply Qle_bool_iff.
Qed.

Lemma insert_le_filter l q i s :
  filter (fun k => Qeq_bool (key_at l k) q) (insert_by (before_le l) i s) =
  filter (fun k => Qeq_bool (key_at l k) q) (i :: s).
Proof.
  induction s as [|j s IH]; auto.
  simpl insert_by. destruct (before_le l i j) eqn:E; auto.
  simpl in *. rewrite IH.
  destruct (Qeq_bool (key_at l i) q) eqn:Ei; auto.
  destruct (Qeq_bool (key_at l j) q) eqn:Ej; auto.
  apply Qeq_bool_iff in Ei, Ej. unfold before_le in E.
  assert (Qle_bool (key_at l i) (key_at l j) = true); [|congruence].
  apply Qle_bool_iff. rewrite Ei, Ej. apply Qle_refl.
Qed.

Lemma before_le_stable : stable (insertion_argsort before_le).
Proof.
  intros l q. unfold insertion_argsort.
  generalize (seq 0 (List.length l)) as idx.
  induction idx as [|i idx IH]; auto.
  simpl fold_right. rewrite insert_le_filter. simpl. now rewrite IH.
Qed.

(** ** Positions and [take] *)

Lemma take_In {A} (l : list A) idx x : In x (take l idx) -> In x l.
Proof.
  unfold take. rewrite in_flat_map. intros [i [_ H]].
  destruct (nth_error l i) eqn:E; simpl in H; [|tauto].
  destruct H as [<-|[]]. eapply nth_error_In; eauto.
Qed.

Lemma take_seq_app {A} (l0 l : list A) :
  take (l0 ++ l) (seq (List.length l0) (List.length l)) = l.
Proof.
  revert l0. induction l as [|x l IH]; intros l0; simpl; auto.
  rewrite nth_error_app2, Nat.sub_diag by lia. simpl. f_equal.
  specialize (IH (l0 ++ [x])). rewrite <- app_assoc, length_app in IH. simpl in IH.
  now rewrite Nat.add_1_r in IH.
Qed.

Lemma take_seq {A} (l : list A) : take l (seq 0 (List.length l)) = l.
Proof. apply (take_seq_app []). Qed.

Lemma take_perm {A} (l : list A) idx idx' :
  Permutation idx idx' -> Permutation (take l idx) (take l idx').
Proof. intros H. unfold take. now apply Permutation_flat_map. Qed.

Lemma take_map {A B} (g : A -> B) (l : list A) idx :
  take (map g l) idx = map g (take l idx).
Proof.
  induction idx as [|i idx IH]; simpl; auto.
  rewrite map_app, <- IH. f_equal.
  rewrite nth_error_map. now destruct (nth_error l i).
Qed.

Lemma filter_take {A} (P : A -> bool) (l : list A) idx :
  filter P (take l idx) = take l (filter (at_pos l P) idx).
Proof.
  induction idx as [|i idx IH]; simpl; auto.
  rewrite filter_app, IH. unfold at_pos at 2.
  destruct (nth_error l i) eqn:E; simpl; auto.
  destruct (P a); simpl; auto. now rewrite E.
Qed.

Lemma key_at_map {A} (k : A -> Q) (l : list A) i x :
  nth_error l i = Some x -> key_at (map k l) i = k x.
Proof.
  intros H. unfold key_at. apply nth_error_nth.
  rewrite nth_error_map, H. reflexivity.
Qed.

Lemma take_sorted {A} (k : A -> Q) (l : list A) idx :
  StronglySorted (fun i j => key_at (map k l) i <= key_at (map k l) j) idx ->
  StronglySorted (fun x y => k x <= k y) (take l idx).
Proof.
  induction 1 as [|i idx Hs IH Hi]; simpl; [constructor|].
  destruct (nth_error l i) eqn:E; simpl; auto.
  constructor; auto.
  apply Forall_forall. intros y Hy. unfold take in Hy.
  apply in_flat_map in Hy. destruct Hy as [j [Hj Hy]].
  destruct (nth_error l j) eqn:Ej; simpl in Hy; [|tauto].
  destruct Hy as [<-|[]].
  rewrite Forall_forall in Hi. specialize (Hi j Hj).
  now rewrite (key_at_map k l i a E), (key_at_map k l j a0 Ej) in Hi.
Qed.

Lemma StronglySorted_app {A} (R : A -> A -> Prop) l1 l2 :
  StronglySorted R l1 -> StronglySorted R l2 ->
  (forall x y, In x l1 -> In y l2 -> R x y) ->
  StronglySorted R (l1 ++ l2).
Proof.
  induction 1 as [|a l1 Hs IH Ha]; intros H2 H; simpl; auto.
  constructor.
  - apply IH; auto. intros; apply H; simpl; auto.
  - apply Forall_app. split; auto.
    apply Forall_forall. intros y Hy. apply H; simpl; auto.
Qed.

Lemma StronglySorted_rev {A} (R : A -> A -> Prop) l :
  StronglySorted R l -> StronglySorted (fun x y => R y x) (rev l).
Proof.
  induction 1 as [|a l Hs IH Ha]; simpl; [constructor|].
  apply StronglySorted_app; auto.
  - repeat constructor.
  - intros x y Hx [<-|[]]. apply in_rev in Hx.
    rewrite Forall_forall in Ha. auto.
Qed.

(** ** The row order of [sort_values] *)

Lemma sort_rows_desc_In K key rs r :
  In r (sort_rows_desc K key rs) -> In r rs.
Proof.
  unfold sort_rows_desc. rewrite in_app_iff, <- in_rev.
  intros [H|H].
  - apply take_In, in_rev, filter_In in H. tauto.
  - apply filter_In in H. tauto.
Qed.

Lemma sort_rows_desc_map K key (g : Row -> Row) rs :
  sort_rows_desc K key (map g rs) = map g (sort_rows_desc K (fun r => key (g r)) rs).
Proof.
  unfold sort_rows_desc.
  rewrite !filter_map_swap, map_app. f_equal.
  rewrite <- (map_rev g (filter _ rs)), take_map, map_map.
  symmetry. apply map_rev.
Qed.

(** The numeric rows come first, in non-increasing order of the key; the
    rows with NaN follow in listing order. *)
Lemma sort_rows_desc_shape K key rs :
  sorts K ->
  exists nums,
    sort_rows_desc K key rs = nums ++ filter (fun r => isna (key r)) rs /\
    Permutation nums (filter (fun r => notna (key r)) rs) /\
    StronglySorted (fun x y => value_of (key y) <= value_of (key x)) nums.
Proof.
  intros HK. unfold sort_rows_desc.
  set (rv := rev (filter (fun r => notna (key r)) rs)).
  set (ks := map (fun r => value_of (key r)) rv).
  destruct (HK ks) as [Hperm Hsorted].
  exists (rev (take rv (K ks))). split; [reflexivity|]. split.
  - rewrite <- Permutation_rev.
    rewrite (take_perm rv _ _ Hperm).
    unfold ks. rewrite length_map, take_seq. unfold rv.
    symmetry. apply Permutation_rev.
  - apply (StronglySorted_rev (fun x y => value_of (key x) <= value_of (key y))).
    now apply (take_sorted (fun r => value_of (key r))).
Qed.

Lemma sort_rows_desc_perm K key rs :
  sorts K -> Permutation (sort_rows_desc K key rs) rs.
Proof.
  intros HK. destruct (sort_rows_desc_shape K key rs HK) as [nums [-> [Hp _]]].
  rewrite Hp. clear. induction rs as [|r rs IH]; simpl; auto.
  unfold notna. destruct (isna (key r)); simpl.
  - rewrite <- Permutation_middle. now constructor.
  - now constructor.
Qed.

Lemma sort_rows_desc_length K key rs :
  sorts K -> List.length (sort_rows_desc K key rs) = List.length rs.
Proof. intros HK. apply Permutation_length, sort_rows_desc_perm, HK. Qed.

Lemma filter_none {A} (P : A -> bool) l :
  (forall x, In x l -> P x = false) -> filter P l = [].
Proof.
  induction l as [|a l IH]; simpl; auto. intros H.
  rewrite (H a) by auto. apply IH. auto.
Qed.

Lemma filter_filter_impl {A} (P Q : A -> bool) l :
  (forall x, P x = true -> Q x = true) -> filter P (filter Q l) = filter P l.
Proof.
  intros H. induction l as [|a l IH]; simpl; auto.
  destruct (Q a) eqn:E; simpl; rewrite IH; auto.
  destruct (P a) eqn:E'; auto. apply H in E'. congruence.
Qed.

(** With a stable kind, the rows that share a score keep their listing
    order; the rows with NaN keep it with every kind. *)
Lemma sort_rows_desc_nan K key rs :
  filter (fun r => isna (key r)) (sort_rows_desc K key rs) =
  filter (fun r => isna (key r)) rs.
Proof.
  unfold sort_rows_desc. rewrite filter_app, filter_none.
  - simpl. apply filter_filter_impl. auto.
  - intros x Hx. apply in_rev, take_In, in_rev, filter_In in Hx.
    destruct Hx as [_ Hx]. unfold notna in Hx. now apply negb_true_iff.
Qed.

Lemma sort_rows_desc_stable K key rs c :
  sorts K -> stable K ->
  filter (fun r => same_score c (key r)) (sort_rows_desc K key rs) =
  filter (fun r => same_score c (key r)) rs.
Proof.
  intros HK HS. destruct c as [|q].
  - rewrite (filter_ext (fun r => same_score NaN (key r)) (fun r => isna (key r))).
    + apply sort_rows_desc_nan.
    + intros r. now destruct (key r).
  - unfold sort_rows_desc.
    set (P := fun r => same_score (Num q) (key r)).
    set (rv := rev (filter (fun r => notna (key r)) rs)).
    set (ks := map (fun r => value_of (key r)) rv).
    assert (Hagree : forall i, (i < List.length rv)%nat ->
                               at_pos rv P i = Qeq_bool (key_at ks i) q).
    { intros i Hi. unfold at_pos. destruct (nth_error rv i) as [x|] eqn:E.
      - unfold ks. rewrite (key_at_map _ rv i x E).
        apply nth_error_In in E. unfold rv in E.
        apply in_rev, filter_In in E. destruct E as [_ E].
        unfold P. destruct (key x); simpl in *; auto. discriminate.
      - apply nth_error_None in E. lia. }
    assert (Hlen : List.length ks = List.length rv) by (unfold ks; apply length_map).
    rewrite filter_app, filter_rev, filter_take.
    rewrite (filter_ext_in (at_pos rv P) (fun i => Qeq_bool (key_at ks i) q)).
    2:{ intros i Hi. apply Hagree.
        destruct (HK ks) as [Hp _]. apply (Permutation_in _ Hp) in Hi.
        apply in_seq in Hi. lia. }
    rewrite HS, Hlen.
    rewrite <- (filter_ext_in (at_pos rv P) (fun i => Qeq_bool (key_at ks i) q)).
    2:{ intros i Hi. apply Hagree. apply in_seq in Hi. lia. }
    rewrite <- filter_take, take_seq. unfold rv.
    rewrite filter_rev, rev_involutive.
    rewrite (filter_none P (filter (fun r => isna (key r)) rs)), app_nil_r.
    + apply filter_filter_impl. intros x. unfold P, notna.
      now destruct (key x).
    + intros x Hx. apply filter_In in Hx. destruct Hx as [_ Hx].
      unfold P. now destruct (key x).
Qed.

(** ** Frames: columns, assignment, sorting, the ranking table *)

Lemma getcol_ok df c :
  mem c (columns df) = true -> getcol df c = Ok (map (fun r => loc r c) (rows df)).
Proof. intros H. unfold getcol. now rewrite H. Qed.

Lemma check_cols_ok df cols :
  has_columns df cols = true -> check_cols df cols = Ok tt.
Proof.
  unfold has_columns. induction cols as [|c cols IH]; simpl; auto.
  intros H. apply andb_true_iff in H. destruct H as [Hc H].
  rewrite (getcol_ok _ _ Hc). simpl. auto.
Qed.

Lemma mem_add_key c cols : mem c (add_key cols c) = true.
Proof.
  unfold add_key. destruct (mem c cols) eqn:E; auto.
  apply mem_In, in_or_app. right. simpl. auto.
Qed.

Lemma mem_add_key_mono c c' cols :
  mem c' cols = true -> mem c' (add_key cols c) = true.
Proof.
  unfold add_key. intros H. destruct (mem c cols); auto.
  apply mem_In, in_or_app. left. now apply mem_In.
Qed.

Lemma columns_assign df c f : columns (assign df c f) = add_key (columns df) c.
Proof. reflexivity. Qed.

Lemma rows_assign df c f :
  rows (assign df c f) = map (fun r => set_cell c (f r) r) (rows df).
Proof. reflexivity. Qed.

Lemma sort_rows_desc_ext K key key' rs :
  (forall r, key r = key' r) ->
  sort_rows_desc K key rs = sort_rows_desc K key' rs.
Proof.
  intros H. unfold sort_rows_desc.
  rewrite (filter_ext (fun r => notna (key r)) (fun r => notna (key' r))),
          (filter_ext (fun r => isna (key r)) (fun r => isna (key' r))),
          (map_ext (fun r => value_of (key r)) (fun r => value_of (key' r)));
    auto; intros r; now rewrite H.
Qed.

(** Sorting by a column that was just assigned sorts the rows by the
    assigned values. *)
Lemma sort_values_assign K df c f :
  sort_values K c (assign df c f) =
  Ok {| columns := add_key (columns df) c;
        rows := map (fun r => set_cell c (f r) r) (sort_rows_desc K f (rows df)) |}.
Proof.
  unfold sort_values. rewrite getcol_ok by (rewrite columns_assign; apply mem_add_key).
  simpl. f_equal. f_equal.
  rewrite sort_rows_desc_map. f_equal.
  apply sort_rows_desc_ext. intros r. apply loc_set_cell_same.
Qed.

Lemma map_fst_combine {A B} (l1 : list A) (l2 : list B) :
  List.length l1 = List.length l2 -> map fst (combine l1 l2) = l1.
Proof.
  revert l2. induction l1 as [|a l1 IH]; intros [|b l2]; simpl; try discriminate; auto.
  intros H. f_equal. apply IH. lia.
Qed.

Lemma map_snd_combine {A B} (l1 : list A) (l2 : list B) :
  List.length l1 = List.length l2 -> map snd (combine l1 l2) = l2.
Proof.
  revert l2. induction l1 as [|a l1 IH]; intros [|b l2]; simpl; try discriminate; auto.
  intros H. f_equal. apply IH. lia.
Qed.

Lemma ranked_table_ranks c cols df :
  ranks (fun r => loc r c) (rows df) (ranked_table c cols df).
Proof.
  unfold ranks, ranked_table.
  assert (H : List.length (seq 1 (List.length (rows df))) = List.length (rows df))
    by apply length_seq.
  rewrite !map_map. simpl. repeat split.
  - rewrite <- (map_map fst (fun x => x)), map_fst_combine, map_id; auto.
  - rewrite <- (map_map snd r_index), map_snd_combine; auto.
  - rewrite <- (map_map snd r_name), map_snd_combine; auto.
  - rewrite <- (map_map snd (fun r => loc r c)), map_snd_combine; auto.
Qed.

Lemma ranks_length score picked table :
  ranks score picked table -> List.length table = List.length picked.
Proof.
  intros [H _]. apply (f_equal (@List.length nat)) in H.
  now rewrite length_map, length_seq in H.
Qed.

Lemma ranks_rank score picked table :
  ranks score picked table -> map rk_rank table = seq 1 (List.length table).
Proof. intros H. rewrite (ranks_length _ _ _ H). apply H. Qed.

(** The ranking table of a frame whose score column was assigned from
    the rows: it ranks the first [n] rows of the sorted order. *)
Lemma ranked_table_assign c cols n df f (order : list Row) :
  ranks f (firstn n order)
    (ranked_table c cols
       (head n {| columns := add_key (columns df) c;
                  rows := map (fun r => set_cell c (f r) r) order |})).
Proof.
  pose proof (ranked_table_ranks c cols
       (head n {| columns := add_key (columns df) c;
                  rows := map (fun r => set_cell c (f r) r) order |})) as H.
  unfold ranks in *. simpl in *. rewrite !firstn_map in H.
  rewrite !map_map, length_map in H. simpl in H.
  destruct H as [H1 [H2 [H3 H4]]]. repeat split; auto.
  rewrite H4. apply map_ext. intros r. apply loc_set_cell_same.
Qed.

Lemma ranks_nth score picked table i e :
  ranks score picked table -> nth_error table i = Some e ->
  exists r, nth_error picked i = Some r /\
            rk_rank e = S i /\ rk_index e = r_index r /\
            rk_name e = r_name r /\ rk_score e = score r.
Proof.
  intros [H1 [H2 [H3 H4]]] He.
  assert (Hi : (i < List.length picked)%nat).
  { apply (f_equal (@List.length nat)) in H1.
    rewrite length_map, length_seq in H1. rewrite <- H1.
    apply nth_error_Some. congruence. }
  destruct (nth_error picked i) as [r|] eqn:Er; [|apply nth_error_None in Er; lia].
  exists r. split; auto.
  pose proof (map_nth_error rk_rank _ _ He) as E1. rewrite H1 in E1.
  pose proof (map_nth_error rk_index _ _ He) as E2. rewrite H2 in E2.
  pose proof (map_nth_error rk_name _ _ He) as E3. rewrite H3 in E3.
  pose proof (map_nth_error rk_score _ _ He) as E4. rewrite H4 in E4.
  rewrite (map_nth_error r_index _ _ Er) in E2.
  rewrite (map_nth_error r_name _ _ Er) in E3.
  rewrite (map_nth_error score _ _ Er) in E4.
  rewrite nth_error_seq in E1.
  destruct (Nat.ltb_spec i (List.length picked)); [|lia].
  simpl in E1. repeat split; congruence.
Qed.

Lemma ranks_In score picked table e :
  ranks score picked table -> In e table ->
  exists r, In r picked /\ rk_index e = r_index r /\
            rk_name e = r_name r /\ rk_score e = score r.
Proof.
  intros H He. apply In_nth_error in He. destruct He as [i He].
  destruct (ranks_nth _ _ _ _ _ H He) as [r [Hr [_ Hrest]]].
  exists r. split; auto. eapply nth_error_In; eauto.
Qed.

(** ** Weighted average *)

Lemma In_firstn {A} (x : A) n l : In x (firstn n l) -> In x l.
Proof.
  revert l. induction n as [|n IH]; intros [|a l]; simpl; try tauto.
  intros [H|H]; auto.
Qed.

Lemma cadd_nan_r a : cadd a NaN = NaN.
Proof. now destruct a. Qed.

Lemma weighted_fold_nan (weights : dict Q) (r : Row) metrics :
  fold_left (fun acc metric => cadd acc (cmul (loc r metric) (Num (weights_get weights metric))))
            metrics NaN = NaN.
Proof. induction metrics; simpl; auto. Qed.

Lemma weighted_score_missing metrics weights r m :
  In m metrics -> loc r m = NaN -> weighted_score metrics weights r = NaN.
Proof.
  unfold weighted_score. generalize (Num 0) as acc.
  induction metrics as [|m0 metrics IH]; simpl; [tauto|].
  intros acc [->|Hin] Hm.
  - rewrite Hm. simpl. rewrite cadd_nan_r. apply weighted_fold_nan.
  - now apply IH.
Qed.

Lemma all_present_false metrics r :
  all_present metrics r = false -> exists m, In m metrics /\ loc r m = NaN.
Proof.
  unfold all_present. induction metrics as [|m metrics IH]; simpl; [discriminate|].
  intros H. apply andb_false_iff in H. destruct H as [H|H].
  - exists m. split; auto. unfold notna in H. now destruct (loc r m).
  - destruct (IH H) as [m' [Hin Hm]]. exists m'. auto.
Qed.

Lemma weighted_score_present metrics weights r :
  all_present metrics r = true ->
  ceq (weighted_score metrics weights r) (Num (zero_fill_score metrics weights r)).
Proof.
  unfold weighted_score, zero_fill_score, all_present.
  assert (G : forall a,
             forallb (fun m => notna (loc r m)) metrics = true ->
             ceq (fold_left (fun acc metric =>
                               cadd acc (cmul (loc r metric) (Num (weights_get weights metric))))
                            metrics (Num a))
                 (Num (a + Qsum (map (fun m => value_of (loc r m) * weights_get weights m)
                                     metrics)))).
  { induction metrics as [|m metrics IH]; simpl; intros a H.
    - ring.
    - apply andb_true_iff in H. destruct H as [Hm H].
      destruct (loc r m) as [|v] eqn:E; [discriminate|]. simpl.
      eapply ceq_trans; [apply IH; auto|]. simpl. ring. }
  intros H. eapply ceq_trans; [apply G; auto|]. simpl. ring.
Qed.

Lemma rank_weighted_ranks K df metrics weights n :
  has_columns df metrics = true ->
  exists table,
    rank_weighted K df metrics weights n = Ok table /\
    ranks (weighted_score metrics weights)
          (firstn n (sort_rows_desc K (weighted_score metrics weights) (rows df)))
          table.
Proof.
  intros Hc. unfold rank_weighted.
  rewrite (check_cols_ok _ _ Hc). simpl.
  rewrite sort_values_assign. simpl. eexists. split; [reflexivity|].
  apply ranked_table_assign.
Qed.






(** C10.  Weighted Average: a candidate that misses one of the active
    metrics gets a NaN score; the sorted order lists the candidates with
    a numeric score first and those with NaN after them; the result is
    the first [n] rows of that order, NaN rows included, ranked [1..]. *)
Theorem weighted_missing_ranked_last K df metrics weights n :
  sorts K ->
  has_columns df metrics = true ->
  let score := weighted_score metrics weights in
  (forall r, all_present metrics r = false -> score r = NaN) /\
  exists table numeric,
    rank_weighted K df metrics weights n = Ok table /\
    Permutation numeric (filter (fun r => notna (score r)) (rows df)) /\
    ranks score (firstn n (numeric ++ filter (fun r => isna (score r)) (rows df))) table /\
    List.length table = Nat.min n (List.length (rows df)) /\
    map rk_rank table = seq 1 (List.length table).
Proof.
  intros HK Hc score. split.
  - intros r E. destruct (all_present_false _ _ E) as [m [Hm Hnan]].
    eapply weighted_score_missing; eauto.
  - destruct (rank_weighted_ranks K df metrics weights n Hc) as [table [Heq Hr]].
    destruct (sort_rows_desc_shape K score (rows df) HK) as [numeric [Hshape [Hperm _]]].
    fold score in Hr.
    exists table, numeric. split; auto. split; auto.
    rewrite <- Hshape. split; auto. split.
    + rewrite (ranks_length _ _ _ Hr), length_firstn, sort_rows_desc_length; auto.
    + eapply ranks_rank; eauto.
Qed.

Lemma weighted_missing_ranked_last_witness :
  let score := weighted_score two_metrics half_weights in
  (forall r, all_present two_metrics r = false -> score r = NaN) /\
  exists table numeric,
    rank_weighted stable_kind (frame_of records_AD) two_metrics half_weights 2 = Ok table /\
    Permutation numeric (filter (fun r => notna (score r)) (rows (frame_of records_AD))) /\
    ranks score (firstn 2 (numeric ++
                   filter (fun r => isna (score r)) (rows (frame_of records_AD)))) table /\
    List.length table = Nat.min 2 (List.length (rows (frame_of records_AD))) /\
    map rk_rank table = seq 1 (List.length table).
Proof.
  apply (weighted_missing_ranked_last stable_kind (frame_of records_AD) two_metrics
           half_weights 2).
  - exact before_le_sorts.
  - reflexivity.
Defined.

(** ** Order of the ranking table *)

Lemma StronglySorted_firstn {A} (R : A -> A -> Prop) n l :
  StronglySorted R l -> StronglySorted R (firstn n l).
Proof.
  intros H. revert n. induction H as [|a l Hs IH Ha]; intros [|n]; simpl; try constructor; auto.
  apply Forall_forall. intros x Hx. apply In_firstn in Hx.
  rewrite Forall_forall in Ha. auto.
Qed.

Lemma StronglySorted_map {A B} (R : B -> B -> Prop) (g : A -> B) l :
  StronglySorted (fun x y => R (g x) (g y)) l -> StronglySorted R (map g l).
Proof.
  induction 1 as [|a l Hs IH Ha]; simpl; constructor; auto.
  apply Forall_map. exact Ha.
Qed.

Lemma StronglySorted_map_filter {A} (R : nat -> nat -> Prop) (g : A -> nat) (P : A -> bool) l :
  StronglySorted R (map g l) -> StronglySorted R (map g (filter P l)).
Proof.
  induction l as [|a l IH]; simpl; auto. intros H.
  apply StronglySorted_inv in H. destruct H as [Hs Ha].
  destruct (P a); simpl; auto. constructor; auto.
  rewrite Forall_forall in *. intros x Hx. apply Ha.
  apply in_map_iff in Hx. destruct Hx as [y [<- Hy]].
  apply in_map. apply filter_In in Hy. tauto.
Qed.

Lemma StronglySorted_seq start len : StronglySorted lt (seq start len).
Proof.
  revert start. induction len as [|len IH]; intros start; simpl; constructor; auto.
  apply Forall_forall. intros x Hx. apply in_seq in Hx. lia.
Qed.

Lemma StronglySorted_between {A} (R : A -> A -> Prop) l1 y l2 x l3 :
  StronglySorted R (l1 ++ y :: l2 ++ x :: l3) -> R y x.
Proof.
  induction l1 as [|a l1 IH]; simpl; intros H; apply StronglySorted_inv in H.
  - destruct H as [_ H]. rewrite Forall_forall in H. apply H.
    apply in_or_app. right. simpl. auto.
  - apply IH. tauto.
Qed.

Lemma filter_two_positions {A} (P : A -> bool) l j i y x :
  nth_error l j = Some y -> nth_error l i = Some x -> (j < i)%nat ->
  P y = true -> P x = true ->
  exists l1 l2 l3, filter P l = l1 ++ y :: l2 ++ x :: l3.
Proof.
  intros Hj Hi Hlt Py Px.
  destruct (nth_error_split _ _ Hj) as [a [b [-> Hlen]]].
  rewrite nth_error_app2 in Hi by lia.
  replace (i - List.length a)%nat with (S (i - List.length a - 1)) in Hi by lia.
  simpl in Hi.
  destruct (nth_error_split _ _ Hi) as [c [d [-> _]]].
  exists (filter P a), (filter P c), (filter P d).
  rewrite filter_app. simpl. rewrite Py, filter_app. simpl. now rewrite Px.
Qed.

Lemma same_score_refl c : same_score c c = true.
Proof. destruct c; simpl; auto. apply Qeq_bool_iff. reflexivity. Qed.

Lemma map_all_nan {A} (f : A -> cell) l :
  (forall r, In r l -> isna (f r) = true) -> map f l = repeat NaN (List.length l).
Proof.
  induction l as [|r l IH]; simpl; auto. intros H. f_equal.
  - specialize (H r (or_introl eq_refl)). now destruct (f r).
  - apply IH. auto.
Qed.

(** The scores of the first [n] rows of the sorted order. *)
Lemma sorted_scores_desc K f rs n :
  sorts K -> desc_nan_last (map f (firstn n (sort_rows_desc K f rs))).
Proof.
  intros HK. destruct (sort_rows_desc_shape K f rs HK) as [nums [-> [Hperm Hs]]].
  exists (map (fun r => value_of (f r)) (firstn n nums)),
         (List.length (firstn (n - List.length nums) (filter (fun r => isna (f r)) rs))).
  split.
  - rewrite firstn_app, map_app, map_map. f_equal.
    + apply map_ext_in. intros r Hr. apply In_firstn in Hr.
      apply (Permutation_in _ Hperm), filter_In in Hr. destruct Hr as [_ Hr].
      unfold notna in Hr. now destruct (f r).
    + apply map_all_nan. intros r Hr. apply In_firstn, filter_In in Hr. tauto.
  - apply StronglySorted_map, StronglySorted_firstn, Hs.
Qed.

Lemma ranks_postcondition K f rs n table :
  sorts K ->
  ranks f (firstn n (sort_rows_desc K f rs)) table ->
  List.length table = Nat.min n (List.length rs) /\
  map rk_rank table = seq 1 (List.length table) /\
  desc_nan_last (map rk_score table).
Proof.
  intros HK Hr. split; [|split].
  - rewrite (ranks_length _ _ _ Hr), length_firstn, sort_rows_desc_length; auto.
  - eapply ranks_rank; eauto.
  - destruct Hr as [_ [_ [_ ->]]]. now apply sorted_scores_desc.
Qed.

(** With a stable kind and the index [0..n-1], candidates of the result
    that share a score come in listing order. *)
Lemma ranks_ties K f rs n table :
  sorts K -> stable K ->
  map r_index rs = seq 0 (List.length rs) ->
  ranks f (firstn n (sort_rows_desc K f rs)) table ->
  ties_in_listing_order table.
Proof.
  intros HK HS Hidx Hr i j e1 e2 H1 H2 Hsame Hlt.
  destruct (ranks_nth _ _ _ _ _ Hr H1) as [r1 [Hr1 [_ [Hi1 [_ Hs1]]]]].
  destruct (ranks_nth _ _ _ _ _ Hr H2) as [r2 [Hr2 [_ [Hi2 [_ Hs2]]]]].
  rewrite nth_error_firstn in Hr1, Hr2.
  destruct (Nat.ltb i n); [|discriminate].
  destruct (Nat.ltb j n); [|discriminate].
  destruct (Nat.lt_trichotomy i j) as [Hij|[Hij|Hij]]; auto.
  - subst j. rewrite Hr1 in Hr2. injection Hr2 as ->. lia.
  - exfalso.
    set (P := fun r => same_score (f r1) (f r)).
    assert (P2 : P r2 = true) by (unfold P; congruence).
    assert (P1 : P r1 = true) by apply same_score_refl.
    destruct (filter_two_positions P _ _ _ _ _ Hr2 Hr1 Hij P2 P1) as [l1 [l2 [l3 Hf]]].
    unfold P in Hf. rewrite (sort_rows_desc_stable K f rs (f r1) HK HS) in Hf.
    assert (Hsorted : StronglySorted lt (map r_index (filter (fun r => same_score (f r1) (f r)) rs))).
    { apply StronglySorted_map_filter. rewrite Hidx. apply StronglySorted_seq. }
    rewrite Hf, map_app in Hsorted. simpl in Hsorted. rewrite map_app in Hsorted.
    simpl in Hsorted. apply StronglySorted_between in Hsorted. lia.
Qed.

(** ** Min-max scaling *)

Lemma Qmin_list_le_init x l : Qmin_list x l <= x.
Proof.
  revert x. induction l as [|y l IH]; intros x; simpl.
  - apply Qle_refl.
  - eapply Qle_trans; [apply IH|]. apply Q.le_min_l.
Qed.

Lemma Qmin_list_le x l y : In y l -> Qmin_list x l <= y.
Proof.
  revert x. induction l as [|z l IH]; intros x; simpl; [tauto|].
  intros [->|H]; auto.
  eapply Qle_trans; [apply Qmin_list_le_init|]. apply Q.le_min_r.
Qed.

Lemma Qmax_list_ge_init x l : x <= Qmax_list x l.
Proof.
  revert x. induction l as [|y l IH]; intros x; simpl.
  - apply Qle_refl.
  - eapply Qle_trans; [|apply IH]. apply Q.le_max_l.
Qed.

Lemma Qmax_list_ge x l y : In y l -> y <= Qmax_list x l.
Proof.
  revert x. induction l as [|z l IH]; intros x; simpl; [tauto|].
  intros [->|H]; auto.
  eapply Qle_trans; [|apply Qmax_list_ge_init]. apply Q.le_max_r.
Qed.

Lemma present_In s v : In (Num v) s <-> In v (present s).
Proof.
  induction s as [|[|q] s IH]; simpl; [tauto| |].
  - rewrite <- IH. split; auto. intros [H|H]; [discriminate|auto].
  - rewrite <- IH. split; intros [H|H]; auto; left; congruence.
Qed.

(** A value of the column lies between the minimum and the maximum. *)
Lemma series_min_max_bounds s v :
  In (Num v) s ->
  exists mn mx, series_min s = Num mn /\ series_max s = Num mx /\ mn <= v <= mx.
Proof.
  intros H. apply present_In in H. unfold series_min, series_max.
  destruct (present s) as [|x l]; [destruct H|].
  exists (Qmin_list x l), (Qmax_list x l). repeat split; auto.
  - destruct H as [->|H]; [apply Qmin_list_le_init|now apply Qmin_list_le].
  - destruct H as [->|H]; [apply Qmax_list_ge_init|now apply Qmax_list_ge].
Qed.

(** The division of the scaling never divides a non-zero number by
    zero. *)
Lemma norm_cell_zero_den s v mn mx :
  In (Num v) s -> series_min s = Num mn -> series_max s = Num mx ->
  mx - mn == 0 -> v - mn == 0.
Proof.
  intros H Hmn Hmx Hz.
  destruct (series_min_max_bounds s v H) as [a [b [Ha [Hb [H1 H2]]]]].
  rewrite Hmn in Ha. rewrite Hmx in Hb. injection Ha as <-. injection Hb as <-.
  lra.
Qed.

Lemma norm_cell_range s v :
  In v s ->
  norm_cell v (series_min s) (series_max s) = NaN \/
  exists q, norm_cell v (series_min s) (series_max s) = Num q /\ 0 <= q <= 1.
Proof.
  intros H. destruct v as [|v]; [now left|].
  destruct (series_min_max_bounds s v H) as [mn [mx [-> [-> [H1 H2]]]]].
  unfold norm_cell. simpl.
  destruct (Qeq_bool (mx - mn) 0) eqn:E; [now left|right].
  eexists. split; [reflexivity|].
  apply Qeq_bool_neq in E.
  assert (Hpos : 0 < mx - mn) by lra.
  split.
  - apply Qle_shift_div_l; auto. lra.
  - apply Qle_shift_div_r; auto. lra.
Qed.

Lemma notna_norm_value df m r :
  notna (norm_value df m r) = notna (loc r m) && negb (constant_col df m).
Proof.
  unfold norm_value, constant_col, norm_cell.
  destruct (loc r m) as [|v]; simpl; auto.
  destruct (series_min (col df m)) as [|mn]; simpl; auto.
  destruct (series_max (col df m)) as [|mx]; simpl; auto.
  now destruct (Qeq_bool (mx - mn) 0).
Qed.

Lemma norm_value_constant df m r :
  ceq (series_max (col df m)) (series_min (col df m)) -> norm_value df m r = NaN.
Proof.
  unfold norm_value, norm_cell.
  destruct (series_max (col df m)) as [|mx], (series_min (col df m)) as [|mn];
    simpl; try tauto; intros H; destruct (loc r m); simpl; auto.
  assert (E : Qeq_bool (mx - mn) 0 = true) by (apply Qeq_bool_iff; lra).
  now rewrite E.
Qed.

(** ** The loop over the metrics *)

Lemma length_append (a b : string) :
  String.length (a ++ b) = (String.length a + String.length b)%nat.
Proof. induction a as [|c a IH]; simpl; auto. Qed.

Lemma append_inj_l (a b s : string) : (a ++ s)%string = (b ++ s)%string -> a = b.
Proof.
  revert b. induction a as [|c a IH]; intros [|d b]; simpl; auto; intros H.
  - exfalso. apply (f_equal String.length) in H. simpl in H.
    rewrite length_append in H. lia.
  - exfalso. apply (f_equal String.length) in H. simpl in H.
    rewrite length_append in H. lia.
  - injection H as -> H. f_equal. auto.
Qed.

Lemma norm_name_inj m m' : norm_name m = norm_name m' -> m = m'.
Proof. apply append_inj_l. Qed.

Lemma norm_fresh_spec metrics :
  norm_fresh metrics = true ->
  forall m m', In m metrics -> In m' metrics -> norm_name m <> m'.
Proof.
  unfold norm_fresh. rewrite forallb_forall. intros H m m' Hm Hm' E.
  specialize (H m Hm). apply negb_true_iff, mem_false in H. apply H. now rewrite E.
Qed.

Lemma has_columns_In df cols c :
  has_columns df cols = true -> In c cols -> mem c (columns df) = true.
Proof. unfold has_columns. rewrite forallb_forall. auto. Qed.

Lemma has_columns_mono df df' cols :
  (forall c, mem c (columns df) = true -> mem c (columns df') = true) ->
  has_columns df cols = true -> has_columns df' cols = true.
Proof.
  unfold has_columns. rewrite !forallb_forall. auto.
Qed.

Lemma normalize_col_eq df m :
  mem m (columns df) = true ->
  normalize_col df m = Ok (assign df (norm_name m) (norm_value df m)).
Proof. intros H. unfold normalize_col. rewrite (getcol_ok _ _ H). reflexivity. Qed.

(** The loop returns a frame: same rows, in the same order, with the
    normalized columns added. *)
Lemma normalize_all_ok metrics : forall df,
  has_columns df metrics = true ->
  exists df' G,
    normalize_all metrics df = Ok df' /\
    rows df' = map G (rows df) /\
    (forall r, r_index (G r) = r_index r /\ r_name (G r) = r_name r) /\
    (forall c, mem c (columns df) = true -> mem c (columns df') = true) /\
    has_columns df' (map norm_name metrics) = true.
Proof.
  induction metrics as [|m metrics IH]; intros df Hc.
  - exists df, (fun r => r). simpl. rewrite map_id. repeat split; auto.
  - simpl in Hc. apply andb_true_iff in Hc. destruct Hc as [Hm Hc].
    simpl. rewrite (normalize_col_eq _ _ Hm). simpl.
    set (df1 := assign df (norm_name m) (norm_value df m)).
    assert (Hmono : forall c, mem c (columns df) = true -> mem c (columns df1) = true).
    { intros c H. unfold df1. rewrite columns_assign. now apply mem_add_key_mono. }
    destruct (IH df1 (has_columns_mono _ _ _ Hmono Hc)) as [df' [G [Heq [Hrows [HG [Hcols Hn]]]]]].
    exists df', (fun r => G (set_cell (norm_name m) (norm_value df m r) r)).
    split; auto. split; [|split; [|split]].
    + rewrite Hrows. unfold df1. rewrite rows_assign, map_map. reflexivity.
    + intros r. destruct (HG (set_cell (norm_name m) (norm_value df m r) r)) as [-> ->].
      split; reflexivity.
    + auto.
    + simpl. rewrite Hn, andb_true_r. apply Hcols. unfold df1.
      rewrite columns_assign. apply mem_add_key.
Qed.

Lemma fold_left_ext_in {A B} (f g : A -> B -> A) l :
  (forall a x, In x l -> f a x = g a x) -> forall a, fold_left f l a = fold_left g l a.
Proof.
  induction l as [|x l IH]; simpl; auto. intros H a.
  rewrite (H a x) by auto. apply IH. auto.
Qed.

Lemma col_assign_other df c f c' :
  c <> c' -> col (assign df c f) c' = col df c'.
Proof.
  intros H. unfold col. rewrite rows_assign, map_map.
  apply map_ext. intros r. now apply loc_set_cell_other.
Qed.

Lemma norm_row_cons df m metrics r :
  norm_row df (m :: metrics) r =
  norm_row df metrics (set_cell (norm_name m) (norm_value df m r) r).
Proof. reflexivity. Qed.

(** When no metric is called like a normalized column, the loop scales
    every metric with the minimum and maximum of its original column. *)
Lemma normalize_all_rows metrics : forall df df',
  (forall m m', In m metrics -> In m' metrics -> norm_name m <> m') ->
  normalize_all metrics df = Ok df' ->
  rows df' = map (norm_row df metrics) (rows df).
Proof.
  induction metrics as [|m metrics IH]; intros df df' Hf H.
  - simpl in H. injection H as <-. simpl. now rewrite map_id.
  - simpl in H. unfold normalize_col in H.
    destruct (getcol df m) as [s|e] eqn:Eg; [|discriminate].
    unfold getcol in Eg. destruct (mem m (columns df)); [|discriminate].
    injection Eg as <-. simpl in H. fold (col df m) in H.
    change (fun r => norm_cell (loc r m) (series_min (col df m)) (series_max (col df m)))
      with (norm_value df m) in H.
    apply IH in H; [|intros; apply Hf; simpl; auto].
    rewrite H, rows_assign, map_map. apply map_ext. intros r.
    rewrite norm_row_cons. unfold norm_row. apply fold_left_ext_in.
    intros a x Hx. rewrite col_assign_other; auto.
    apply Hf; simpl; auto.
Qed.

Lemma norm_row_index df metrics r : r_index (norm_row df metrics r) = r_index r.
Proof.
  revert r. induction metrics as [|m metrics IH]; intros r; auto.
  rewrite norm_row_cons, IH. reflexivity.
Qed.

Lemma norm_row_name df metrics r : r_name (norm_row df metrics r) = r_name r.
Proof.
  revert r. induction metrics as [|m metrics IH]; intros r; auto.
  rewrite norm_row_cons, IH. reflexivity.
Qed.

Lemma norm_row_other df metrics c : forall r,
  ~ In c (map norm_name metrics) -> loc (norm_row df metrics r) c = loc r c.
Proof.
  induction metrics as [|m metrics IH]; intros r H; auto.
  rewrite norm_row_cons, IH by (simpl in H; tauto).
  apply loc_set_cell_other. simpl in H. tauto.
Qed.

Lemma norm_row_norm df metrics m :
  (forall m1 m2, In m1 metrics -> In m2 metrics -> norm_name m1 <> m2) ->
  In m metrics ->
  forall r, loc (norm_row df metrics r) (norm_name m) = norm_value df m r.
Proof.
  induction metrics as [|m0 metrics IH]; intros Hf Hm r; [destruct Hm|].
  rewrite norm_row_cons.
  destruct (in_dec string_dec m metrics) as [Hin|Hnin].
  - rewrite IH; auto; [|intros; apply Hf; simpl; auto].
    unfold norm_value. rewrite loc_set_cell_other; auto.
    apply Hf; simpl; auto.
  - destruct Hm as [->|Hm]; [|contradiction].
    rewrite norm_row_other, loc_set_cell_same; auto.
    intros H. apply in_map_iff in H. destruct H as [m' [E Hm']].
    apply norm_name_inj in E. congruence.
Qed.

(** ** Composite score *)

Lemma ranks_map f (G : Row -> Row) picked table :
  (forall r, r_index (G r) = r_index r /\ r_name (G r) = r_name r) ->
  ranks f (map G picked) table -> ranks (fun r => f (G r)) picked table.
Proof.
  intros HG [H1 [H2 [H3 H4]]]. rewrite length_map in H1. rewrite map_map in H2, H3, H4.
  repeat split; auto.
  - rewrite H2. apply map_ext. intros r. apply HG.
  - rewrite H3. apply map_ext. intros r. apply HG.
Qed.

(** The composite frame exists whatever the table holds. *)
Lemma composite_frame_ok df metrics nz :
  has_columns df metrics = true ->
  exists df1 cols G,
    composite_frame df metrics nz = Ok (assign df1 "composite_score" (row_mean cols)) /\
    rows df1 = map G (rows df) /\
    (forall r, r_index (G r) = r_index r /\ r_name (G r) = r_name r).
Proof.
  intros Hc. unfold composite_frame. destruct nz.
  - destruct (normalize_all_ok metrics df Hc) as [df' [G [Heq [Hrows [HG [_ Hn]]]]]].
    exists df', (map norm_name metrics), G. rewrite Heq. simpl.
    rewrite (check_cols_ok _ _ Hn). simpl. auto.
  - exists df, metrics, (fun r => r). simpl.
    rewrite (check_cols_ok _ _ Hc), map_id. simpl. auto.
Qed.

Lemma rank_composite_ok K df metrics nz n :
  has_columns df metrics = true ->
  exists table f rs,
    rank_composite K df metrics nz n = Ok table /\
    ranks f (firstn n (sort_rows_desc K f rs)) table /\
    map r_index rs = map r_index (rows df).
Proof.
  intros Hc. destruct (composite_frame_ok df metrics nz Hc) as [df1 [cols [G [Heq [Hrows HG]]]]].
  unfold rank_composite. rewrite Heq. simpl. rewrite sort_values_assign. simpl.
  eexists. exists (row_mean cols), (rows df1). split; [reflexivity|]. split.
  - apply ranked_table_assign.
  - rewrite Hrows, map_map. apply map_ext. intros r. apply HG.
Qed.

Lemma row_mean_norm df metrics r :
  (forall m1 m2, In m1 metrics -> In m2 metrics -> norm_name m1 <> m2) ->
  row_mean (map norm_name metrics) (norm_row df metrics r) =
  series_mean (map (composite_value df true r) metrics).
Proof.
  intros Hf. unfold row_mean. rewrite map_map. f_equal.
  apply map_ext_in. intros m Hm. now apply norm_row_norm.
Qed.

(** The composite ranking in terms of the rows of the table. *)
Lemma rank_composite_ranks K df metrics nz n :
  has_columns df metrics = true ->
  implb nz (norm_fresh metrics) = true ->
  let score := fun r => series_mean (map (composite_value df nz r) metrics) in
  exists table,
    rank_composite K df metrics nz n = Ok table /\
    ranks score (firstn n (sort_rows_desc K score (rows df))) table.
Proof.
  intros Hc Hf score. unfold rank_composite, composite_frame. destruct nz.
  - simpl in Hf. pose proof (norm_fresh_spec _ Hf) as Hfresh.
    destruct (normalize_all_ok metrics df Hc) as [df' [G [Heq [_ [_ [_ Hn]]]]]].
    rewrite Heq. simpl. rewrite (check_cols_ok _ _ Hn). simpl.
    rewrite sort_values_assign. simpl.
    rewrite (normalize_all_rows _ _ _ Hfresh Heq), sort_rows_desc_map.
    rewrite (sort_rows_desc_ext K _ score) by (intros r; now apply row_mean_norm).
    eexists. split; [reflexivity|].
    pose proof (ranked_table_assign "composite_score" metrics n df'
                  (row_mean (map norm_name metrics))
                  (map (norm_row df metrics) (sort_rows_desc K score (rows df)))) as H.
    rewrite firstn_map in H.
    apply ranks_map in H; [|intros r; split; [apply norm_row_index|apply norm_row_name]].
    destruct H as [H1 [H2 [H3 H4]]]. repeat split; auto.
    rewrite H4. apply map_ext. intros r. now apply row_mean_norm.
  - simpl. rewrite (check_cols_ok _ _ Hc). simpl.
    rewrite sort_values_assign. simpl. eexists. split; [reflexivity|].
    apply (ranked_table_assign "composite_score" metrics n df (row_mean metrics)).
Qed.

Lemma present_map (f : string -> cell) l :
  present (map f l) = map (fun m => value_of (f m)) (filter (fun m => notna (f m)) l).
Proof.
  induction l as [|m l IH]; simpl; auto.
  unfold notna at 1. destruct (f m) eqn:E; simpl; rewrite IH; auto.
  now rewrite E.
Qed.

(** The composite score is the mean of the counted values. *)
Lemma composite_score_counted df metrics nz r :
  series_mean (map (composite_value df nz r) metrics) =
  mean_of (map (fun m => value_of (composite_value df nz r m))
               (filter (counted df nz r) metrics)).
Proof.
  unfold series_mean. rewrite present_map. f_equal. f_equal.
  apply filter_ext. intros m. unfold composite_value, counted. destruct nz; simpl.
  - apply notna_norm_value.
  - now rewrite andb_true_r.
Qed.

(** ** The three methods *)

Lemma rank_single_ranks K df m n :
  mem m (columns df) = true ->
  exists table,
    rank_single K df m n = Ok table /\
    ranks (fun r => loc r m)
          (firstn n (sort_rows_desc K (fun r => loc r m) (rows df))) table.
Proof.
  intros Hm. unfold rank_single, sort_values. rewrite (getcol_ok _ _ Hm). simpl.
  eexists. split; [reflexivity|].
  apply (ranked_table_ranks m []
           (head n {| columns := columns df;
                      rows := sort_rows_desc K (fun r => loc r m) (rows df) |})).
Qed.

Lemma rank_by_ok K df metrics cfg :
  has_columns df metrics = true ->
  mem (ranking_metric cfg) (columns df) = true ->
  exists table f rs,
    rank_by K df metrics cfg = Ok table /\
    ranks f (firstn (top_n cfg) (sort_rows_desc K f rs)) table /\
    map r_index rs = map r_index (rows df).
Proof.
  intros Hc Hm. unfold rank_by. destruct (weight_method cfg).
  - destruct (rank_single_ranks K df _ (top_n cfg) Hm) as [table [Heq Hr]].
    exists table, (fun r => loc r (ranking_metric cfg)), (rows df). auto.
  - destruct (rank_weighted_ranks K df metrics (weights cfg) (top_n cfg) Hc) as [table [Heq Hr]].
    exists table, (weighted_score metrics (weights cfg)), (rows df). auto.
  - apply rank_composite_ok; auto.
Qed.

(** ** Single metric *)

Lemma filter_keeps_all {A} (P : A -> bool) l :
  (forall x, In x l -> P x = true) -> filter P l = l.
Proof.
  induction l as [|a l IH]; simpl; auto. intros H.
  rewrite (H a) by auto. f_equal. apply IH. auto.
Qed.

Lemma filter_map_length {A B} (P : B -> bool) (g : A -> B) l :
  List.length (filter P (map g l)) = List.length (filter (fun x => P (g x)) l).
Proof.
  induction l as [|a l IH]; simpl; auto. destruct (P (g a)); simpl; auto.
Qed.

(** The number of lines with a missing score in a table that ranks
    [scored ++ unscored], cut after [n] rows. *)
Lemma ranks_count_nan f scored unscored n table :
  (forall r, In r scored -> isna (f r) = false) ->
  (forall r, In r unscored -> isna (f r) = true) ->
  ranks f (firstn n scored ++ firstn (n - List.length scored) unscored) table ->
  List.length (filter (fun e => isna (rk_score e)) table) =
  Nat.min (n - List.length scored) (List.length unscored).
Proof.
  intros Hs Hu [_ [_ [_ Hsc]]].
  rewrite <- (filter_map_length isna rk_score), Hsc, filter_map_length, filter_app, length_app.
  rewrite filter_none by (intros x Hx; apply Hs; eapply In_firstn; eauto).
  rewrite filter_keeps_all by (intros x Hx; apply Hu; eapply In_firstn; eauto).
  simpl. apply length_firstn.
Qed.

(** C2, as amended.  Single Metric: the candidates scored on the chosen
    metric come first, sorted non-increasing by that metric; the
    candidates without a score for it are not left out: they follow in
    listing order and show NaN.  The result is the first [n] rows of
    that order: with [s] scored candidates it holds the first [n - s]
    unscored ones, none when [n] does not exceed [s]. *)
Theorem single_metric_unscored_last K df metric n :
  sorts K ->
  mem metric (columns df) = true ->
  exists table scored,
    let unscored := filter (fun r => isna (loc r metric)) (rows df) in
    rank_single K df metric n = Ok table /\
    Permutation scored (filter (fun r => notna (loc r metric)) (rows df)) /\
    StronglySorted (fun x y => value_of (loc y metric) <= value_of (loc x metric)) scored /\
    ranks (fun r => loc r metric)
          (firstn n scored ++ firstn (n - List.length scored) unscored) table /\
    List.length (filter (fun e => isna (rk_score e)) table) =
      Nat.min (n - List.length scored) (List.length unscored) /\
    ((n <= List.length scored)%nat -> Forall (fun e => rk_score e <> NaN) table).
Proof.
  intros HK Hm.
  destruct (rank_single_ranks K df metric n Hm) as [table [Heq Hr]].
  destruct (sort_rows_desc_shape K (fun r => loc r metric) (rows df) HK)
    as [scored [Hshape [Hperm Hs]]].
  rewrite Hshape, firstn_app in Hr.
  assert (Hscored : forall r, In r scored -> isna (loc r metric) = false).
  { intros r Hin. apply (Permutation_in _ Hperm), filter_In in Hin.
    destruct Hin as [_ Hin]. unfold notna in Hin. now apply negb_true_iff. }
  assert (Hcount := ranks_count_nan (fun r => loc r metric) scored
                      (filter (fun r => isna (loc r metric)) (rows df)) n table Hscored
                      (fun r Hin => proj2 (proj1 (filter_In _ _ _) Hin)) Hr).
  exists table, scored. cbv zeta.
  split; [exact Heq|]. split; [exact Hperm|]. split; [exact Hs|]. split; [exact Hr|].
  split; [exact Hcount|].
  intros Hn. apply Forall_forall. intros e He Hnan.
  assert (Hz : List.length (filter (fun e => isna (rk_score e)) table) = 0%nat).
  { rewrite Hcount. replace (n - List.length scored)%nat with 0%nat by lia. reflexivity. }
  assert (Hin : In e (filter (fun e => isna (rk_score e)) table)).
  { apply filter_In. split; auto. now rewrite Hnan. }
  destruct (filter (fun e => isna (rk_score e)) table); [destruct Hin|discriminate].
Qed.

Lemma single_metric_unscored_last_witness :
  (exists table scored,
    let unscored := filter (fun r => isna (loc r "Communication")) (rows (frame_of records_mixed)) in
    rank_single stable_kind (frame_of records_mixed) "Communication" 2 = Ok table /\
    Permutation scored
      (filter (fun r => notna (loc r "Communication")) (rows (frame_of records_mixed))) /\
    StronglySorted
      (fun x y => value_of (loc y "Communication") <= value_of (loc x "Communication")) scored /\
    ranks (fun r => loc r "Communication")
          (firstn 2 scored ++ firstn (2 - List.length scored) unscored) table /\
    List.length (filter (fun e => isna (rk_score e)) table) =
      Nat.min (2 - List.length scored) (List.length unscored) /\
    ((2 <= List.length scored)%nat -> Forall (fun e => rk_score e <> NaN) table)) /\
  (exists table scored,
    let unscored := filter (fun r => isna (loc r "Communication")) (rows (frame_of records_mixed)) in
    rank_single stable_kind (frame_of records_mixed) "Communication" 3 = Ok table /\
    Permutation scored
      (filter (fun r => notna (loc r "Communication")) (rows (frame_of records_mixed))) /\
    StronglySorted
      (fun x y => value_of (loc y "Communication") <= value_of (loc x "Communication")) scored /\
    ranks (fun r => loc r "Communication")
          (firstn 3 scored ++ firstn (3 - List.length scored) unscored) table /\
    List.length (filter (fun e => isna (rk_score e)) table) =
      Nat.min (3 - List.length scored) (List.length unscored) /\
    ((3 <= List.length scored)%nat -> Forall (fun e => rk_score e <> NaN) table)).
Proof.
  split.
  - apply (single_metric_unscored_last stable_kind (frame_of records_mixed) "Communication" 2).
    + exact before_le_sorts.
    + reflexivity.
  - apply (single_metric_unscored_last stable_kind (frame_of records_mixed) "Communication" 3).
    + exact before_le_sorts.
    + reflexivity.
Defined.

(** By Communication, with [top_n = 3]: the two scored candidates, then
    D1, the first unscored candidate of the listing; D2 is left out. *)
Example single_metric_ranks_unscored_last :
  rank_single stable_kind (frame_of records_mixed) "Communication" 3 =
  Ok [ {| rk_rank := 1; rk_index := 0; rk_name := "B"; rk_score := Num 9; rk_values := [] |};
       {| rk_rank := 2; rk_index := 2; rk_name := "A"; rk_score := Num 6; rk_values := [] |};
       {| rk_rank := 3; rk_index := 1; rk_name := "D1"; rk_score := NaN; rk_values := [] |} ].
Proof. reflexivity. Qed.

(** C2, as stated, fails: D has no Communication score and is ranked
    second by Communication. *)
Lemma single_excludes_unscored_counterexample :
  ~ single_excludes_unscored_claim stable_kind (frame_of records_AD) "Communication" 2.
Proof.
  intros H.
  apply (H _ eq_refl
           {| rk_rank := 2; rk_index := 1; rk_name := "D"; rk_score := NaN; rk_values := [] |}
           {| r_index := 1; r_name := "D";
              r_cells := [("Technical Skills"%string, Num 9);
                          ("Communication"%string, NaN)] |});
    [simpl; auto | reflexivity | reflexivity].
Qed.

(** ** All methods *)

(** C6, as amended.  For every method the result has
    [min(top_n, number of candidates of the table)] lines, the ranks are
    [1..length], and the score column is non-increasing with its NaN
    scores at the end. *)
Theorem ranking_postcondition K df metrics cfg :
  sorts K ->
  has_columns df metrics = true ->
  mem (ranking_metric cfg) (columns df) = true ->
  exists table,
    rank_by K df metrics cfg = Ok table /\
    List.length table = Nat.min (top_n cfg) (List.length (rows df)) /\
    map rk_rank table = seq 1 (List.length table) /\
    desc_nan_last (map rk_score table).
Proof.
  intros HK Hc Hm.
  destruct (rank_by_ok K df metrics cfg Hc Hm) as [table [f [rs [Heq [Hr Hidx]]]]].
  exists table. split; auto.
  destruct (ranks_postcondition K f rs _ table HK Hr) as [H1 [H2 H3]].
  repeat split; auto.
  rewrite H1. f_equal.
  apply (f_equal (@List.length nat)) in Hidx. now rewrite !length_map in Hidx.
Qed.

Lemma ranking_postcondition_witness :
  exists table,
    rank_by stable_kind (frame_of records_AD) two_metrics (composite_cfg true 2) = Ok table /\
    List.length table = Nat.min 2 (List.length (rows (frame_of records_AD))) /\
    map rk_rank table = seq 1 (List.length table) /\
    desc_nan_last (map rk_score table).
Proof.
  apply (ranking_postcondition stable_kind (frame_of records_AD) two_metrics
           (composite_cfg true 2)).
  - exact before_le_sorts.
  - reflexivity.
  - reflexivity.
Defined.

(** C6, as stated, fails.  By Communication only A can be ranked (D has
    no Communication score), so [min(top_n, rankable)] is 1, yet the
    result has two lines.  And if D counts as rankable, the result is
    not sorted non-increasing: its score column is 6 followed by NaN,
    and NaN is not below 6. *)
Lemma common_postcondition_counterexample :
  ~ common_postcondition_claim rankable stable_kind (frame_of records_AD) two_metrics
      (single_cfg "Communication" 2) /\
  ~ common_postcondition_claim every_row stable_kind (frame_of records_AD) two_metrics
      (single_cfg "Communication" 2).
Proof.
  split; intros H.
  - destruct (H _ eq_refl) as [Hlen _]. vm_compute in Hlen. discriminate.
  - destruct (H _ eq_refl) as [_ [_ Hs]]. unfold sorted_ge in Hs. simpl in Hs.
    apply StronglySorted_inv in Hs. destruct Hs as [_ Hs].
    apply Forall_inv in Hs. discriminate Hs.
Qed.

(** ** The order of the result with any sort kind *)

Lemma filter_numeric_rows (f : Row -> cell) nums nans :
  (forall r, In r nums -> notna (f r) = true) ->
  (forall r, In r nans -> isna (f r) = true) ->
  filter (fun r => notna (f r)) (nums ++ nans) = nums.
Proof.
  intros Hn Hm. rewrite filter_app.
  rewrite (filter_none _ nans) by (intros x Hx; unfold notna; now rewrite (Hm x Hx)).
  rewrite app_nil_r. induction nums as [|a l IH]; simpl; auto.
  rewrite (Hn a) by (simpl; auto). f_equal. apply IH. intros r Hr. apply Hn. simpl. auto.
Qed.

(** Whatever the kind does with equal scores, a higher score comes
    first, the missing scores come last, and the rows without a score
    keep their listing order. *)
Lemma ranks_ordered K f rs n table :
  sorts K ->
  map r_index rs = seq 0 (List.length rs) ->
  ranks f (firstn n (sort_rows_desc K f rs)) table ->
  ordered_up_to_ties table.
Proof.
  intros HK Hidx Hr i j e1 e2 H1 H2.
  destruct (ranks_nth _ _ _ _ _ Hr H1) as [r1 [Hr1 [_ [Hi1 [_ Hs1]]]]].
  destruct (ranks_nth _ _ _ _ _ Hr H2) as [r2 [Hr2 [_ [Hi2 [_ Hs2]]]]].
  rewrite nth_error_firstn in Hr1, Hr2.
  destruct (Nat.ltb i n); [|discriminate].
  destruct (Nat.ltb j n); [|discriminate].
  destruct (sort_rows_desc_shape K f rs HK) as [nums [Hshape [Hperm Hsorted]]].
  assert (Hnum : forall r, In r nums -> notna (f r) = true).
  { intros r Hin. apply (Permutation_in _ Hperm), filter_In in Hin. tauto. }
  assert (Hnan : forall r, In r (filter (fun r => isna (f r)) rs) -> isna (f r) = true).
  { intros r Hin. apply filter_In in Hin. tauto. }
  rewrite Hs1, Hs2.
  destruct (f r1) as [|x] eqn:E1; destruct (f r2) as [|y] eqn:E2; auto.
  - (* two missing scores *)
    intros Hlt. destruct (Nat.lt_trichotomy i j) as [Hij|[Hij|Hij]]; auto.
    + subst j. rewrite Hr1 in Hr2. injection Hr2 as ->. lia.
    + exfalso.
      assert (P2 : isna (f r2) = true) by now rewrite E2.
      assert (P1 : isna (f r1) = true) by now rewrite E1.
      destruct (filter_two_positions (fun r => isna (f r)) _ _ _ _ _ Hr2 Hr1 Hij P2 P1)
        as [l1 [l2 [l3 Hf]]].
      rewrite sort_rows_desc_nan in Hf.
      assert (Hs : StronglySorted lt (map r_index (filter (fun r => isna (f r)) rs))).
      { apply StronglySorted_map_filter. rewrite Hidx. apply StronglySorted_seq. }
      rewrite Hf, map_app in Hs. simpl in Hs. rewrite map_app in Hs.
      simpl in Hs. apply StronglySorted_between in Hs. lia.
  - (* a numeric score and a missing one *)
    destruct (Nat.lt_trichotomy i j) as [Hij|[Hij|Hij]]; auto; exfalso.
    + subst j. rewrite Hr1 in Hr2. injection Hr2 as ->. congruence.
    + rewrite Hshape in Hr1, Hr2.
      destruct (Nat.lt_ge_cases j (List.length nums)) as [Hj|Hj].
      * rewrite nth_error_app1 in Hr2 by auto. apply nth_error_In, Hnum in Hr2.
        unfold notna in Hr2. rewrite E2 in Hr2. discriminate.
      * rewrite nth_error_app2 in Hr1 by lia. apply nth_error_In, Hnan in Hr1.
        rewrite E1 in Hr1. discriminate.
  - (* two numeric scores *)
    intros Hlt. destruct (Nat.lt_trichotomy i j) as [Hij|[Hij|Hij]]; auto; exfalso.
    + subst j. rewrite Hr1 in Hr2. injection Hr2 as ->.
      rewrite E1 in E2. injection E2 as ->. now apply (Qlt_irrefl y).
    + assert (P2 : notna (f r2) = true) by now rewrite E2.
      assert (P1 : notna (f r1) = true) by now rewrite E1.
      destruct (filter_two_positions (fun r => notna (f r)) _ _ _ _ _ Hr2 Hr1 Hij P2 P1)
        as [l1 [l2 [l3 Hf]]].
      rewrite Hshape, (filter_numeric_rows f nums _ Hnum Hnan) in Hf.
      rewrite Hf in Hsorted. apply StronglySorted_between in Hsorted.
      rewrite E1, E2 in Hsorted. simpl in Hsorted.
      apply (Qlt_irrefl x). eapply Qle_lt_trans; eauto.
Qed.

(** C5, as amended.  For every method and every sort kind, a candidate
    with a higher score comes before a candidate with a lower one, the
    candidates with a numeric score come before those whose score is
    missing, and the candidates whose score is missing come in the order
    of the candidate listing.  The order of two candidates with the same
    numeric score is left to the sort kind. *)
Theorem order_is_fixed_up_to_ties K df metrics cfg :
  sorts K ->
  range_index df ->
  has_columns df metrics = true ->
  mem (ranking_metric cfg) (columns df) = true ->
  exists table,
    rank_by K df metrics cfg = Ok table /\ ordered_up_to_ties table.
Proof.
  intros HK Hri Hc Hm.
  destruct (rank_by_ok K df metrics cfg Hc Hm) as [table [f [rs [Heq [Hr Hidx]]]]].
  exists table. split; auto.
  apply (ranks_ordered K f rs (top_n cfg) table HK); auto.
  rewrite Hidx, Hri. f_equal.
  apply (f_equal (@List.length nat)) in Hidx. now rewrite !length_map in Hidx.
Qed.

Lemma order_is_fixed_up_to_ties_witness :
  exists table,
    rank_by stable_kind (frame_of records_mixed) two_metrics
            (single_cfg "Communication" 4) = Ok table /\
    ordered_up_to_ties table.
Proof.
  apply (order_is_fixed_up_to_ties stable_kind (frame_of records_mixed) two_metrics
           (single_cfg "Communication" 4)).
  - exact before_le_sorts.
  - reflexivity.
  - reflexivity.
  - reflexivity.
Defined.

(** With a stable sort kind the candidates that share a score would come
    in listing order. *)
Lemma ties_kept_by_stable_kind K df metrics cfg :
  sorts K -> stable K ->
  range_index df ->
  has_columns df metrics = true ->
  mem (ranking_metric cfg) (columns df) = true ->
  exists table,
    rank_by K df metrics cfg = Ok table /\ ties_in_listing_order table.
Proof.
  intros HK HS Hri Hc Hm.
  destruct (rank_by_ok K df metrics cfg Hc Hm) as [table [f [rs [Heq [Hr Hidx]]]]].
  exists table. split; auto.
  apply (ranks_ties K f rs (top_n cfg) table HK HS); auto.
  rewrite Hidx, Hri. f_equal.
  apply (f_equal (@List.length nat)) in Hidx. now rewrite !length_map in Hidx.
Qed.

(** C5, as stated, fails: the program asks for no stable sort, and the
    contract of the default kind leaves the order of equal scores open.
    For four candidates with the scores 5, 5, 8, 8 in listing order, a
    kind that meets the contract lists D before C (and B before A):
    tied candidates come out against the listing order. *)
Lemma tie_break_counterexample :
  ~ tie_break_claim (frame_of records_ties) ["Technical Skills"%string]
      (single_cfg "Technical Skills" 4).
Proof.
  intros H.
  specialize (H reversing_kind _ before_lt_sorts eq_refl 1%nat 0%nat
                {| rk_rank := 2; rk_index := 2; rk_name := "C"; rk_score := Num 8;
                   rk_values := [] |}
                {| rk_rank := 1; rk_index := 3; rk_name := "D"; rk_score := Num 8;
                   rk_values := [] |}
                eq_refl eq_refl eq_refl).
  simpl in H. lia.
Qed.

Lemma tie_kind_sorts reversed : sorts (tie_kind reversed).
Proof.
  intros l. split; [apply insertion_argsort_perm|].
  apply fold_insert_sorted; unfold before_tie, before_lt, before_le; intros i j H;
    destruct (reversed (key_at l i)).
  - apply negb_true_iff in H.
    destruct (Qlt_le_dec (key_at l i) (key_at l j)) as [Hlt|Hle].
    + now apply Qlt_le_weak.
    + apply Qle_bool_iff in Hle. congruence.
  - now apply Qle_bool_iff.
  - apply negb_false_iff in H. now apply Qle_bool_iff.
  - destruct (Qlt_le_dec (key_at l j) (key_at l i)) as [Hlt|Hle].
    + now apply Qlt_le_weak.
    + apply Qle_bool_iff in Hle. congruence.
Qed.

(** The contract admits every order of the tied candidates: each of the
    four orders of the two pairs is the answer of a kind that meets it
    ([tie_kind_sorts]), and three of them break the listing order. *)
Example ties_in_any_order :
  let ranking K := rank_single K (frame_of records_ties) "Technical Skills" 4 in
  names_of (ranking (tie_kind (fun _ => false))) = ["C"; "D"; "A"; "B"]%string /\
  names_of (ranking (tie_kind (fun q => Qle_bool 8 q))) = ["D"; "C"; "A"; "B"]%string /\
  names_of (ranking (tie_kind (fun q => Qle_bool q 5))) = ["C"; "D"; "B"; "A"]%string /\
  names_of (ranking (tie_kind (fun _ => true))) = ["D"; "C"; "B"; "A"]%string.
Proof. repeat split. Qed.

(** ** Normalization and composite score *)

(** C3, as amended.  The normalization loop never raises and keeps the
    rows; every normalized value is NaN or lies in [0, 1]; on a column
    whose maximum equals its minimum every normalized value is NaN (not
    0.0); and the composite ranking built on it returns a table. *)
Theorem normalized_unit_interval_or_nan df metrics :
  has_columns df metrics = true ->
  norm_fresh metrics = true ->
  exists df',
    normalize_all metrics df = Ok df' /\
    List.length (rows df') = List.length (rows df) /\
    (forall m r', In m metrics -> In r' (rows df') ->
       loc r' (norm_name m) = NaN \/
       exists q, loc r' (norm_name m) = Num q /\ 0 <= q <= 1) /\
    (forall m r', In m metrics -> In r' (rows df') ->
       ceq (series_max (col df m)) (series_min (col df m)) ->
       loc r' (norm_name m) = NaN) /\
    (forall K n, exists table, rank_composite K df metrics true n = Ok table).
Proof.
  intros Hc Hf. pose proof (norm_fresh_spec _ Hf) as Hfresh.
  destruct (normalize_all_ok metrics df Hc) as [df' [G [Heq _]]].
  pose proof (normalize_all_rows _ _ _ Hfresh Heq) as Hrows.
  exists df'. split; auto. split; [|split; [|split]].
  - now rewrite Hrows, length_map.
  - intros m r' Hm Hr'. rewrite Hrows in Hr'. apply in_map_iff in Hr'.
    destruct Hr' as [r [<- Hr]]. rewrite (norm_row_norm df metrics m Hfresh Hm).
    apply norm_cell_range. unfold col. apply in_map_iff. eauto.
  - intros m r' Hm Hr' Hconst. rewrite Hrows in Hr'. apply in_map_iff in Hr'.
    destruct Hr' as [r [<- Hr]]. rewrite (norm_row_norm df metrics m Hfresh Hm).
    now apply norm_value_constant.
  - intros K n. destruct (rank_composite_ok K df metrics true n Hc) as [table [_ [_ [H _]]]].
    eauto.
Qed.

Lemma normalized_unit_interval_or_nan_witness :
  exists df',
    normalize_all two_metrics (frame_of records_AB) = Ok df' /\
    List.length (rows df') = List.length (rows (frame_of records_AB)) /\
    (forall m r', In m two_metrics -> In r' (rows df') ->
       loc r' (norm_name m) = NaN \/
       exists q, loc r' (norm_name m) = Num q /\ 0 <= q <= 1) /\
    (forall m r', In m two_metrics -> In r' (rows df') ->
       ceq (series_max (col (frame_of records_AB) m))
           (series_min (col (frame_of records_AB) m)) ->
       loc r' (norm_name m) = NaN) /\
    (forall K n, exists table,
        rank_composite K (frame_of records_AB) two_metrics true n = Ok table).
Proof.
  apply (normalized_unit_interval_or_nan (frame_of records_AB) two_metrics).
  - reflexivity.
  - reflexivity.
Defined.

(** C3, as stated, fails: A and B both have 8 on Technical Skills; the
    normalized value of A on that column is NaN, not 0.0. *)
Lemma constant_column_zero_counterexample :
  ~ constant_column_zero_claim (frame_of records_AB) two_metrics.
Proof.
  intros H.
  specialize (H _ eq_refl "Technical Skills"%string (or_introl eq_refl)).
  assert (Hc : ceq (series_max (col (frame_of records_AB) "Technical Skills"))
                   (series_min (col (frame_of records_AB) "Technical Skills")))
    by (vm_compute; reflexivity).
  specialize (H Hc _ (or_introl eq_refl)).
  vm_compute in H. exact H.
Qed.

(** C7, as amended.  Composite Score: every returned candidate is a row
    of the table and its score is the mean of the counted values: the
    raw values of the metrics the candidate has, or, with
    normalization, the scaled values of the metrics the candidate has
    whose column is not constant (a constant column is left out for
    every candidate); NaN when nothing is counted. *)
Theorem composite_mean_over_counted K df metrics nz n :
  has_columns df metrics = true ->
  implb nz (norm_fresh metrics) = true ->
  exists table,
    rank_composite K df metrics nz n = Ok table /\
    forall e, In e table ->
      exists r, In r (rows df) /\ r_index r = rk_index e /\ r_name r = rk_name e /\
        rk_score e =
        mean_of (map (fun m => value_of (composite_value df nz r m))
                     (filter (counted df nz r) metrics)).
Proof.
  intros Hc Hf.
  destruct (rank_composite_ranks K df metrics nz n Hc Hf) as [table [Heq Hr]].
  exists table. split; auto. intros e He.
  destruct (ranks_In _ _ _ _ Hr He) as [r [Hin [Hi [Hn Hs]]]].
  exists r. repeat split; auto.
  - apply In_firstn, sort_rows_desc_In in Hin. exact Hin.
  - rewrite Hs. apply composite_score_counted.
Qed.

Lemma composite_mean_over_counted_witness :
  exists table,
    rank_composite stable_kind (frame_of records_AB) two_metrics true 2 = Ok table /\
    forall e, In e table ->
      exists r, In r (rows (frame_of records_AB)) /\
        r_index r = rk_index e /\ r_name r = rk_name e /\
        rk_score e =
        mean_of (map (fun m => value_of (composite_value (frame_of records_AB) true r m))
                     (filter (counted (frame_of records_AB) true r) two_metrics)).
Proof.
  apply (composite_mean_over_counted stable_kind (frame_of records_AB) two_metrics true 2).
  - reflexivity.
  - reflexivity.
Defined.

(** C7, as stated, fails with normalization: A and B have a value for
    both metrics, but Technical Skills is constant and is left out of
    their means.  The code gives A the score 0 and B the score 1;
    whatever scaled value [tied] the constant column is given, the mean
    over both columns is [(tied + 0) / 2] for A and [(tied + 1) / 2] for
    B, and no [tied] makes both agree with the code. *)
Lemma composite_mean_counterexample :
  ~ exists tied,
      composite_mean_claim tied stable_kind (frame_of records_AB) two_metrics true 2.
Proof.
  intros [tied H].
  pose proof (H _ eq_refl
                {| rk_rank := 1; rk_index := 1; rk_name := "B"; rk_score := Num (3 # 3);
                   rk_values := [("Technical Skills"%string, Num 8);
                                 ("Communication"%string, Num 9)] |}
                {| r_index := 1; r_name := "B";
                   r_cells := [("Technical Skills"%string, Num 8);
                               ("Communication"%string, Num 9)] |}) as HB.
  pose proof (H _ eq_refl
                {| rk_rank := 2; rk_index := 0; rk_name := "A"; rk_score := Num (0 # 3);
                   rk_values := [("Technical Skills"%string, Num 8);
                                 ("Communication"%string, Num 6)] |}
                {| r_index := 0; r_name := "A";
                   r_cells := [("Technical Skills"%string, Num 8);
                               ("Communication"%string, Num 6)] |}) as HA.
  assert (HB' := HB (or_introl eq_refl) eq_refl).
  assert (HA' := HA (or_intror (or_introl eq_refl)) eq_refl).
  clear H HA HB.
  unfold composite_spec, norm_spec, ceq, mean_of in HA', HB'.
  simpl in HA', HB'.
  change (Qmin 6 9) with 6 in HA', HB'. change (Qmax 6 9) with 9 in HA', HB'.
  assert (E1 : (9 - 6) / (9 - 6) == 1) by reflexivity.
  assert (E0 : (6 - 6) / (9 - 6) == 0) by reflexivity.
  rewrite E1 in HB'. rewrite E0 in HA'.
  unfold Qdiv in HA', HB'.
  change (/ inject_Z 2) with (1 # 2) in HA', HB'.
  lra.
Qed.

(** ** The dashboard without data *)


(** Scores that are all zero are shown as metrics (average 0, maximum
    0); no score is shown as a message. *)
Example zero_scores_are_metrics :
  show_analytics_dashboard repo_zero first_option = Ok (DashMetrics 1 (Num 0) 1 (Num 0)).
Proof. reflexivity. Qed.

Example no_scores_is_a_message :
  show_analytics_dashboard repo_unscored first_option =
  Ok (DashInfo "No scores recorded yet. Start evaluating candidates.").
Proof. reflexivity. Qed.

(** ** Columns of a frame built from records *)

Lemma mem_app k l1 l2 : mem k (l1 ++ l2) = mem k l1 || mem k l2.
Proof. unfold mem. apply existsb_app. Qed.

Lemma add_key_old cols k : mem k cols = true -> add_key cols k = cols.
Proof. intros H. unfold add_key. now rewrite H. Qed.

Lemma add_key_new cols k : mem k cols = false -> add_key cols k = cols ++ [k].
Proof. intros H. unfold add_key. now rewrite H. Qed.

Lemma fold_add_key_In l : forall acc y,
  In y (fold_left add_key l acc) <-> In y acc \/ In y l.
Proof.
  induction l as [|x l IH]; intros acc y; simpl; [tauto|].
  rewrite IH. unfold add_key. destruct (mem x acc) eqn:E.
  - apply mem_In in E. split; [tauto|]. intros [H|[<-|H]]; auto.
  - rewrite in_app_iff. simpl. tauto.
Qed.

Lemma filter_filter {A} (P Q : A -> bool) l :
  filter P (filter Q l) = filter (fun x => Q x && P x) l.
Proof.
  induction l as [|a l IH]; simpl; auto.
  destruct (Q a); simpl; [destruct (P a)|]; now rewrite IH.
Qed.

(** The accumulating loop keeps the first occurrence of every key. *)
Lemma fold_add_key_first l : forall acc,
  fold_left add_key l acc =
  acc ++ filter (fun y => negb (mem y acc)) (first_occurrences l).
Proof.
  induction l as [|x l IH]; intros acc; simpl.
  - now rewrite app_nil_r.
  - rewrite IH. unfold add_key. destruct (mem x acc) eqn:E; simpl.
    + f_equal. rewrite filter_filter. apply filter_ext. intros y.
      destruct (String.eqb x y) eqn:Exy; simpl; auto.
      apply String.eqb_eq in Exy. subst. now rewrite E.
    + rewrite <- app_assoc. simpl. f_equal. f_equal.
      rewrite filter_filter. apply filter_ext. intros y.
      rewrite mem_app. unfold mem at 2. simpl. rewrite orb_false_r.
      rewrite (String.eqb_sym y x). now rewrite negb_orb, andb_comm.
Qed.

Lemma first_seen_concat ds : first_seen ds = fold_left add_key (List.concat ds) [].
Proof.
  unfold first_seen. generalize (@nil string) as acc.
  induction ds as [|ks ds IH]; intros acc; simpl; auto.
  now rewrite fold_left_app, IH.
Qed.

Lemma filter_all {A} (P : A -> bool) l : (forall x, P x = true) -> filter P l = l.
Proof. intros H. induction l as [|a l IH]; simpl; auto. now rewrite H, IH. Qed.

Lemma filter_all_in {A} (P : A -> bool) l :
  (forall x, In x l -> P x = true) -> filter P l = l.
Proof.
  induction l as [|a l IH]; simpl; auto. intros H.
  rewrite (H a) by auto. f_equal. apply IH. auto.
Qed.

Lemma fold_add_key_nil l : fold_left add_key l [] = first_occurrences l.
Proof. rewrite fold_add_key_first. simpl. apply filter_all. reflexivity. Qed.

Lemma first_seen_first ds : first_seen ds = first_occurrences (List.concat ds).
Proof. now rewrite first_seen_concat, fold_add_key_nil. Qed.

Lemma first_occurrences_In l y : In y (first_occurrences l) <-> In y l.
Proof.
  rewrite <- fold_add_key_nil, fold_add_key_In. simpl. tauto.
Qed.

(** Reading the keys of a dict that is itself built key by key changes
    nothing to the order of first occurrence. *)
Lemma fold_add_key_idem l : forall acc,
  fold_left add_key (fold_left add_key l []) acc = fold_left add_key l acc.
Proof.
  induction l as [|x l IH] using rev_ind; intros acc; auto.
  rewrite !fold_left_app. cbn [fold_left].
  destruct (mem x (fold_left add_key l [])) eqn:E.
  - assert (Hm : mem x (fold_left add_key l acc) = true).
    { apply mem_In, fold_add_key_In. apply mem_In, fold_add_key_In in E.
      destruct E as [[]|E]. auto. }
    rewrite (add_key_old _ _ E), (add_key_old _ _ Hm). apply IH.
  - rewrite (add_key_new _ _ E), fold_left_app. cbn [fold_left]. now rewrite IH.
Qed.

Lemma keys_fold_dict_set {S V} (key : S -> string) (val : S -> V) (l : list S) : forall d,
  keys (fold_left (fun d s => dict_set (key s) (val s) d) l d) =
  fold_left add_key (map key l) (keys d).
Proof.
  induction l as [|s l IH]; intros d; simpl; auto.
  now rewrite IH, keys_dict_set.
Qed.

Lemma keys_score_dict scores :
  keys (score_dict scores) = fold_left add_key (map sc_metric scores) [].
Proof. unfold score_dict. now rewrite keys_fold_dict_set. Qed.

Lemma dict_get_map_self (f : string -> cell) cols c :
  In c cols -> dict_get c (map (fun c => (c, f c)) cols) = Some (f c).
Proof.
  induction cols as [|c0 cols IH]; simpl; [tauto|].
  intros H. destruct (String.eqb c0 c) eqn:E.
  - apply String.eqb_eq in E. now subst.
  - destruct H as [->|H]; auto. now rewrite String.eqb_refl in E.
Qed.

Lemma columns_frame_of records :
  columns (frame_of records) = first_seen (map (fun rec => keys (snd rec)) records).
Proof. reflexivity. Qed.

Lemma nth_error_enumerate {A} (l : list A) : forall i x start,
  nth_error l i = Some x ->
  nth_error (combine (seq start (List.length l)) l) i = Some ((start + i)%nat, x).
Proof.
  induction l as [|a l IH]; intros [|i] x start H; simpl in *; try discriminate.
  - injection H as ->. now rewrite Nat.add_0_r.
  - rewrite (IH i x (S start) H). f_equal. f_equal. lia.
Qed.

(** The rows of the frame are the records, one by one; a cell holds the
    value of the record under the column, NaN without one. *)
Lemma frame_of_row records i rec :
  nth_error records i = Some rec ->
  exists r, nth_error (rows (frame_of records)) i = Some r /\
            r_index r = i /\ r_name r = fst rec /\
            forall c, In c (columns (frame_of records)) -> loc r c = cell_of (snd rec) c.
Proof.
  intros H. unfold frame_of. simpl.
  set (cols := first_seen (map (fun rec => keys (snd rec)) records)).
  pose proof (nth_error_enumerate records i rec 0 H) as Hc. simpl in Hc.
  eexists. split.
  - rewrite nth_error_map, Hc. reflexivity.
  - simpl. repeat split; auto. intros c Hin. unfold loc. simpl.
    now rewrite dict_get_map_self.
Qed.

Lemma frame_of_rows_length records :
  List.length (rows (frame_of records)) = List.length records.
Proof.
  unfold frame_of. simpl. rewrite length_map, length_combine, length_seq. lia.
Qed.

Lemma frame_of_range_index records : range_index (frame_of records).
Proof.
  unfold range_index. rewrite frame_of_rows_length. unfold frame_of. simpl.
  rewrite map_map. simpl. rewrite <- (map_map fst (fun x => x)), map_id.
  apply map_fst_combine. apply length_seq.
Qed.

(** ** Summary statistics of the dashboard *)

Lemma Qmax_cases x y : Qmax x y = x \/ Qmax x y = y.
Proof.
  unfold Qmax, GenericMinMax.gmax. destruct (x ?= y); auto.
Qed.

Lemma Qmax_list_In x l : In (Qmax_list x l) (x :: l).
Proof.
  revert x. induction l as [|y l IH]; intros x; simpl; auto.
  destruct (IH (Qmax x y)) as [H|H]; auto.
  rewrite <- H. destruct (Qmax_cases x y) as [E|E]; rewrite E; auto.
Qed.

Lemma series_max_is_max s : is_max (series_max s) (present s).
Proof.
  unfold series_max, is_max. destruct (present s) as [|x l]; auto.
  split; [apply Qmax_list_In|].
  intros v [<-|H]; [apply Qmax_list_ge_init|now apply Qmax_list_ge].
Qed.

Lemma column_maxes_col df cols :
  column_maxes df cols = map (fun c => series_max (col df c)) cols.
Proof. reflexivity. Qed.

Lemma column_means_col df cols :
  column_means df cols = map (fun c => series_mean (col df c)) cols.
Proof. reflexivity. Qed.

(** The maximum of the column maxima is the maximum of all values. *)
Lemma max_of_maxes df cols :
  is_max (series_max (column_maxes df cols)) (all_values df cols).
Proof.
  pose proof (series_max_is_max (column_maxes df cols)) as H.
  rewrite column_maxes_col in *.
  assert (Hcol : forall c M, In c cols -> series_max (col df c) = Num M ->
                             In M (present (col df c)) /\
                             forall v, In v (present (col df c)) -> v <= M).
  { intros c M _ E. pose proof (series_max_is_max (col df c)) as Hc.
    rewrite E in Hc. exact Hc. }
  destruct (series_max (map (fun c => series_max (col df c)) cols)) as [|M]; simpl in *.
  - unfold all_values. induction cols as [|c cols IH]; simpl in *; auto.
    destruct (series_max (col df c)) as [|Mc] eqn:E.
    2:{ discriminate H. }
    unfold series_max in E. destruct (present (col df c)) as [|v vs].
    2:{ discriminate E. }
    simpl. apply IH; auto.
  - destruct H as [Hin Hub]. apply present_In, in_map_iff in Hin.
    destruct Hin as [c [E Hc]]. destruct (Hcol c M Hc E) as [HM _].
    split.
    + unfold all_values. apply in_flat_map. eauto.
    + intros v Hv. unfold all_values in Hv. apply in_flat_map in Hv.
      destruct Hv as [c' [Hc' Hv]].
      pose proof (series_max_is_max (col df c')) as Hm.
      destruct (series_max (col df c')) as [|M'] eqn:E'; simpl in Hm.
      * rewrite Hm in Hv. destruct Hv.
      * destruct Hm as [_ Hm]. eapply Qle_trans; [apply Hm; auto|].
        apply Hub. apply present_In, in_map_iff. exists c'. auto.
Qed.

Lemma notna_series_mean df c : notna (series_mean (col df c)) = has_value df c.
Proof.
  unfold series_mean, has_value, mean_of. now destruct (present (col df c)).
Qed.

Lemma value_series_mean df c :
  has_value df c = true -> value_of (series_mean (col df c)) = column_mean df c.
Proof.
  unfold series_mean, has_value, mean_of, column_mean.
  destruct (present (col df c)); [discriminate|reflexivity].
Qed.

(** The mean of the column means. *)
Lemma mean_of_means df cols :
  series_mean (column_means df cols) =
  mean_of (map (column_mean df) (filter (has_value df) cols)).
Proof.
  rewrite column_means_col. unfold series_mean at 1. rewrite present_map.
  rewrite (filter_ext _ (has_value df)) by (intros c; apply notna_series_mean).
  f_equal. apply map_ext_in. intros c Hc. apply filter_In in Hc.
  apply value_series_mean. tauto.
Qed.

Lemma inject_nat_pos n : (0 < n)%nat -> 0 < inject_Z (Z.of_nat n).
Proof.
  intros H. change 0 with (inject_Z 0). rewrite <- Zlt_Qlt. lia.
Qed.

Lemma dict_get_Some_In {V} (k : string) (v : V) (d : dict V) :
  dict_get k d = Some v -> In k (keys d) /\ exists k', In (k', v) d.
Proof.
  induction d as [|[k0 v0] d IH]; simpl; [discriminate|].
  destruct (String.eqb k0 k) eqn:E.
  - intros H. injection H as <-. apply String.eqb_eq in E. split; eauto.
  - intros H. destruct (IH H) as [Hk [k' Hin]]. split; eauto.
Qed.

Lemma dict_set_values {V} (P : V -> Prop) (k : string) (v : V) (d : dict V) :
  P v -> Forall (fun kv => P (snd kv)) d -> Forall (fun kv => P (snd kv)) (dict_set k v d).
Proof.
  intros Hv. induction 1 as [|[k0 v0] d H0 Hd IH]; simpl.
  - constructor; auto.
  - destruct (String.eqb k0 k); constructor; auto.
Qed.

Lemma score_dict_all_numeric scores :
  Forall (fun kv => exists q, snd kv = Num q) (score_dict scores).
Proof.
  unfold score_dict.
  assert (G : forall d : dict cell,
             Forall (fun kv => exists q, snd kv = Num q) d ->
             Forall (fun kv => exists q, snd kv = Num q)
                    (fold_left (fun d s => dict_set (sc_metric s) (Num (sc_value s)) d)
                               scores d)).
  { induction scores as [|s scores IH]; intros d Hd; simpl; auto.
    apply IH. apply (dict_set_values (fun v => exists q, v = Num q)); eauto. }
  apply G. constructor.
Qed.

Lemma score_dict_numeric scores c v :
  dict_get c (score_dict scores) = Some v -> exists q, v = Num q.
Proof.
  intros H. apply dict_get_Some_In in H. destruct H as [_ [k' Hin]].
  pose proof (score_dict_all_numeric scores) as G.
  rewrite Forall_forall in G. apply (G _ Hin).
Qed.

Lemma scored_records_In repo candidates rec :
  In rec (scored_records repo candidates) ->
  exists c, In c candidates /\
            get_scores_for_candidate repo (c_id c) <> [] /\
            rec = (c_name c, score_dict (get_scores_for_candidate repo (c_id c))).
Proof.
  unfold scored_records. rewrite in_flat_map. intros [c [Hc H]].
  exists c. destruct (get_scores_for_candidate repo (c_id c)) as [|s ss]; [destruct H|].
  destruct H as [<-|[]]. repeat split; auto. discriminate.
Qed.

Lemma first_seen_In ds c :
  In c (first_seen ds) <-> exists ks, In ks ds /\ In c ks.
Proof.
  rewrite first_seen_first, first_occurrences_In, in_concat. split.
  - intros [ks [H1 H2]]. eauto.
  - intros [ks [H1 H2]]. eauto.
Qed.

(** Every column of the dashboard frame holds at least one score. *)
Lemma scored_frame_has_values repo candidates c :
  let df := frame_of (scored_records repo candidates) in
  In c (columns df) -> has_value df c = true.
Proof.
  intros df Hc. pose proof Hc as Hc'.
  unfold df in Hc'. rewrite columns_frame_of in Hc'. apply first_seen_In in Hc'.
  destruct Hc' as [ks [Hks Hin]]. apply in_map_iff in Hks.
  destruct Hks as [rec [<- Hrec]].
  destruct (In_nth_error _ _ Hrec) as [i Hi].
  destruct (frame_of_row _ _ _ Hi) as [r [Hr [_ [_ Hloc]]]].
  destruct (scored_records_In _ _ _ Hrec) as [cd [_ [_ ->]]]. simpl in *.
  destruct (dict_get_In _ _ Hin) as [v [Hv _]].
  destruct (score_dict_numeric _ _ _ Hv) as [q ->].
  assert (Hq : In (Num q) (col df c)).
  { unfold col. apply in_map_iff. exists r. split.
    - rewrite (Hloc c Hc). unfold cell_of. now rewrite Hv.
    - eapply nth_error_In; eauto. }
  apply present_In in Hq. unfold has_value. destruct (present (col df c)); auto.
Qed.

Lemma dashboard_metrics_inv repo selectbox sid n a k t :
  selected_session repo selectbox = Ok sid ->
  show_analytics_dashboard repo selectbox = Ok (DashMetrics n a k t) ->
  let df := frame_of (scored_records repo (list_candidates repo sid)) in
  n = List.length (list_candidates repo sid) /\
  a = series_mean (column_means df (score_columns df)) /\
  k = completed repo (list_candidates repo sid) /\
  t = series_max (column_maxes df (score_columns df)).
Proof.
  unfold selected_session, show_analytics_dashboard. intros Hsel.
  destruct (list_sessions repo) as [|s0 ss]; [discriminate|].
  rewrite Hsel. simpl.
  destruct (list_candidates repo sid) as [|c0 cs]; [discriminate|].
  destruct (scored_records repo (c0 :: cs)) as [|rec recs]; [discriminate|].
  intros H. injection H as <- <- <- <-.
  unfold avg_total, top_score. rewrite frame_of_rows_length. auto.
Qed.

(** C4, as amended.  The average shown by the dashboard is the mean,
    over the score columns, of the mean of each column: every column
    holds a score and counts once, whatever its number of scores.  The
    highest score shown is the maximum of all present values. *)
Theorem dashboard_mean_of_metric_means repo selectbox sid n a k t :
  selected_session repo selectbox = Ok sid ->
  show_analytics_dashboard repo selectbox = Ok (DashMetrics n a k t) ->
  let df := frame_of (scored_records repo (list_candidates repo sid)) in
  let cols := score_columns df in
  (forall c, In c cols -> has_value df c = true) /\
  a = mean_of (map (column_mean df) cols) /\
  is_max t (all_values df cols).
Proof.
  intros Hsel Hd df cols.
  destruct (dashboard_metrics_inv _ _ _ _ _ _ _ Hsel Hd) as [_ [Ha [_ Ht]]].
  fold df in Ha, Ht.
  assert (Hv : forall c, In c cols -> has_value df c = true).
  { intros c Hc. apply scored_frame_has_values. apply filter_In in Hc. tauto. }
  split; [exact Hv|]. split.
  - rewrite Ha. fold cols. rewrite mean_of_means. f_equal. f_equal. apply filter_all_in. exact Hv.
  - rewrite Ht. apply max_of_maxes.
Qed.

Lemma dashboard_mean_of_metric_means_witness :
  let df := frame_of (scored_records repo_uneven (list_candidates repo_uneven 1)) in
  let cols := score_columns df in
  (forall c, In c cols -> has_value df c = true) /\
  Num (20 # 4) = mean_of (map (column_mean df) cols) /\
  is_max (Num 10) (all_values df cols).
Proof.
  apply (dashboard_mean_of_metric_means repo_uneven first_option 1 2 (Num (20 # 4)) 2 (Num 10)).
  - reflexivity.
  - reflexivity.
Defined.

(** C4, as stated, fails for the mean: A has 10 and 0, B has 10 only.
    The dashboard shows the average 5 (the mean of the column means 10
    and 0); the mean of the three present values is 20/3. *)
Lemma dashboard_mean_counterexample :
  ~ dashboard_mean_claim repo_uneven first_option.
Proof.
  intros H.
  destruct (H 1%nat 2%nat (Num (20 # 4)) 2%nat (Num 10) eq_refl eq_refl) as [Hmean _].
  vm_compute in Hmean. discriminate Hmean.
Qed.

(** ** Column order *)

Lemma scored_records_cons repo c cs :
  scored_records repo (c :: cs) =
  match get_scores_for_candidate repo (c_id c) with
  | [] => []
  | scores => [(c_name c, score_dict scores)]
  end ++ scored_records repo cs.
Proof. reflexivity. Qed.

Lemma observed_keys repo candidates : forall acc,
  fold_left add_key
    (List.concat (map (fun rec => keys (snd rec)) (scored_records repo candidates))) acc =
  fold_left add_key (observed_metrics repo candidates) acc.
Proof.
  induction candidates as [|c cs IH]; intros acc; auto.
  rewrite scored_records_cons. unfold observed_metrics. simpl flat_map.
  fold (observed_metrics repo cs).
  destruct (get_scores_for_candidate repo (c_id c)) as [|s ss] eqn:E.
  - simpl. apply IH.
  - rewrite map_app, concat_app, !fold_left_app.
    cbn [map List.concat snd]. rewrite app_nil_r, keys_score_dict, fold_add_key_idem.
    apply IH.
Qed.

Lemma export_keys METRICS scores : forall acc,
  fold_left add_key (keys (export_cells METRICS scores)) acc =
  fold_left add_key (match scores with [] => METRICS | _ => map sc_metric scores end) acc.
Proof.
  intros acc. unfold export_cells. destruct scores as [|s ss].
  - rewrite (keys_fold_dict_set (fun m => m) (fun _ => NaN)), map_id. simpl keys.
    apply fold_add_key_idem.
  - rewrite keys_score_dict. apply fold_add_key_idem.
Qed.

Lemma exported_keys METRICS repo candidates : forall acc,
  fold_left add_key
    (List.concat (map (fun rec => keys (snd rec)) (export_data METRICS repo candidates))) acc =
  fold_left add_key (exported_metrics METRICS repo candidates) acc.
Proof.
  induction candidates as [|c cs IH]; intros acc; auto.
  unfold export_data, exported_metrics in *. cbn [map flat_map List.concat snd].
  rewrite !fold_left_app, export_keys.
  destruct (get_scores_for_candidate repo (c_id c)); apply IH.
Qed.

(** ** Export cells *)

Lemma registry_row_all_nan (METRICS : list string) :
  Forall (fun kv => snd kv = NaN)
         (fold_left (fun (row : dict cell) metric => dict_set metric NaN row) METRICS []).
Proof.
  assert (G : forall d : dict cell,
             Forall (fun kv => snd kv = NaN) d ->
             Forall (fun kv => snd kv = NaN)
                    (fold_left (fun row metric => dict_set metric NaN row) METRICS d)).
  { induction METRICS as [|m ms IH]; intros d Hd; simpl; auto.
    apply IH. apply (dict_set_values (fun v => v = NaN)); auto. }
  apply G. constructor.
Qed.

Lemma export_cells_missing METRICS scores c :
  ~ In c (map sc_metric scores) -> cell_of (export_cells METRICS scores) c = NaN.
Proof.
  intros H. unfold cell_of, export_cells. destruct scores as [|s ss].
  - destruct (dict_get c _) as [v|] eqn:E; auto.
    apply dict_get_Some_In in E. destruct E as [_ [k' Hin]].
    pose proof (registry_row_all_nan METRICS) as G. rewrite Forall_forall in G.
    apply (G _ Hin).
  - rewrite dict_get_None; auto.
    rewrite keys_score_dict. intros Hin. apply fold_add_key_In in Hin.
    destruct Hin as [[]|Hin]. contradiction.
Qed.

Lemma export_cells_present METRICS scores c :
  In c (map sc_metric scores) -> exists v, cell_of (export_cells METRICS scores) c = Num v.
Proof.
  intros H. unfold cell_of, export_cells. destruct scores as [|s ss]; [destruct H|].
  assert (Hk : In c (keys (score_dict (s :: ss)))).
  { rewrite keys_score_dict. apply fold_add_key_In. auto. }
  destruct (dict_get_In _ _ Hk) as [v [Hv _]]. rewrite Hv.
  destruct (score_dict_numeric _ _ _ Hv) as [q ->]. eauto.
Qed.

(** C8, as amended.  The active metrics of the ranking page and the
    score columns of the export are ordered by first observation: the
    metrics in the order in which the scores are read, candidate by
    candidate (a candidate without scores stands for the registry in
    the export), each kept at its first occurrence.  In the export, the
    cell of a candidate for a metric it has a score for is a number,
    and the cell for a metric it has no score for is missing and is
    written as the empty field. *)
Theorem columns_by_first_observation (METRICS : list string) repo sid
    (float_repr : Q -> string) :
  let candidates := list_candidates repo sid in
  metrics_of (frame_of (scored_records repo candidates)) =
    filter (not_in reserved) (first_occurrences (observed_metrics repo candidates)) /\
  columns (export_df METRICS repo sid) =
    first_occurrences (exported_metrics METRICS repo candidates) /\
  forall i cand,
    nth_error candidates i = Some cand ->
    exists r,
      nth_error (rows (export_df METRICS repo sid)) i = Some r /\
      r_name r = c_name cand /\
      forall c, In c (columns (export_df METRICS repo sid)) ->
        if mem c (map sc_metric (get_scores_for_candidate repo (c_id cand)))
        then exists v, loc r c = Num v
        else loc r c = NaN /\ csv_field float_repr (loc r c) = EmptyString.
Proof.
  intros candidates. split; [|split].
  - unfold metrics_of. f_equal.
    now rewrite columns_frame_of, first_seen_concat, observed_keys, fold_add_key_nil.
  - unfold export_df. fold candidates.
    now rewrite columns_frame_of, first_seen_concat, exported_keys, fold_add_key_nil.
  - intros i cand Hi. unfold export_df. fold candidates.
    assert (Hrec : nth_error (export_data METRICS repo candidates) i =
                   Some (c_name cand,
                         export_cells METRICS (get_scores_for_candidate repo (c_id cand)))).
    { unfold export_data. now rewrite nth_error_map, Hi. }
    destruct (frame_of_row _ _ _ Hrec) as [r [Hr [_ [Hn Hloc]]]].
    exists r. split; auto. split; auto. intros c Hc.
    rewrite (Hloc c Hc). simpl.
    destruct (mem c (map sc_metric (get_scores_for_candidate repo (c_id cand)))) eqn:E.
    + apply mem_In in E. now apply export_cells_present.
    + apply mem_false in E. rewrite export_cells_missing; auto.
Qed.

(** C8, as stated, fails for the order: with the registry
    (Technical Skills, Communication), a first candidate scored on
    Communication only and a second one scored on both, the active
    metrics are (Communication, Technical Skills). *)
Lemma registry_order_counterexample :
  ~ registry_order_claim registry repo_late_metric 1.
Proof.
  intros [H _]. vm_compute in H. discriminate H.
Qed.

(** ** The ranking page *)

Lemma metrics_of_has_columns df : has_columns df (metrics_of df) = true.
Proof.
  unfold has_columns, metrics_of. apply forallb_forall. intros c Hc.
  apply filter_In in Hc. apply mem_In. tauto.
Qed.

(** When the select boxes return one of their options, the page shows
    the table of the chosen method for the frame of the scored
    candidates and its active metrics. *)
Lemma ranking_page_table K repo selectbox cfg sid :
  selected_session repo selectbox = Ok sid ->
  let df := frame_of (scored_records repo (list_candidates repo sid)) in
  In (ranking_metric cfg) (metrics_of df) ->
  exists table,
    show_ranking_module K repo selectbox cfg = Ok (RankTable table) /\
    rank_by K df (metrics_of df) cfg = Ok table /\
    range_index df.
Proof.
  intros Hsel df Hm.
  assert (Hcol : mem (ranking_metric cfg) (columns df) = true).
  { apply mem_In. unfold metrics_of in Hm. apply filter_In in Hm. tauto. }
  destruct (rank_by_ok K df (metrics_of df) cfg (metrics_of_has_columns df) Hcol)
    as [table [_ [_ [Heq _]]]].
  exists table. split; [|split; [exact Heq|apply frame_of_range_index]].
  unfold show_ranking_module, selected_session in *.
  destruct (list_sessions repo) as [|s0 ss]; [discriminate|].
  rewrite Hsel. simpl.
  destruct (list_candidates repo sid) as [|c0 cs]; [destruct Hm|].
  fold df.
  destruct (scored_records repo (c0 :: cs)) as [|rec recs] eqn:Er; [destruct Hm|].
  destruct (metrics_of df) as [|m ms] eqn:Em; [destruct Hm|].
  now rewrite Heq.
Qed.

(** The worked example of the specification, with a stable kind. *)
Example example_single_metric :
  rank_single stable_kind (frame_of records_ABC) "Technical Skills" 2 =
  Ok [ {| rk_rank := 1; rk_index := 0; rk_name := "A"; rk_score := Num 8; rk_values := [] |};
       {| rk_rank := 2; rk_index := 1; rk_name := "B"; rk_score := Num 8; rk_values := [] |} ].
Proof. reflexivity. Qed.

(** B = 8 + 4.5 = 12.5 and A = 8 + 3 = 11. *)
Example example_weighted_average :
  rank_weighted stable_kind (frame_of records_ABC) two_metrics half_weights 2 =
  Ok [ {| rk_rank := 1; rk_index := 1; rk_name := "B"; rk_score := Num (25 # 2);
          rk_values := [("Technical Skills"%string, Num 8); ("Communication"%string, Num 9)] |};
       {| rk_rank := 2; rk_index := 0; rk_name := "A"; rk_score := Num (22 # 2);
          rk_values := [("Technical Skills"%string, Num 8); ("Communication"%string, Num 6)] |} ].
Proof. reflexivity. Qed.

(** B = (1 + 1) / 2 = 1 and A = (1 + 0) / 2 = 0.5. *)
Example example_composite_normalized :
  rank_composite stable_kind (frame_of records_ABC) two_metrics true 2 =
  Ok [ {| rk_rank := 1; rk_index := 1; rk_name := "B"; rk_score := Num (18 # 18);
          rk_values := [("Technical Skills"%string, Num 8); ("Communication"%string, Num 9)] |};
       {| rk_rank := 2; rk_index := 0; rk_name := "A"; rk_score := Num (9 # 18);
          rk_values := [("Technical Skills"%string, Num 8); ("Communication"%string, Num 6)] |} ].
Proof. reflexivity. Qed.

(** ** Sessions and the select box *)

Lemma dict_get_set {V} (k l : string) (v : V) (d : dict V) :
  dict_get l (dict_set k v d) = if String.eqb k l then Some v else dict_get l d.
Proof.
  destruct (String.eqb k l) eqn:E.
  - apply String.eqb_eq in E. subst. apply dict_get_set_same.
  - apply dict_get_set_other. intros ->. now rewrite String.eqb_refl in E.
Qed.

Lemma NoDup_first_occurrences l : NoDup (first_occurrences l).
Proof.
  induction l as [|x l IH]; simpl; constructor.
  - intros H. apply filter_In in H. destruct H as [_ H].
    now rewrite String.eqb_refl in H.
  - now apply NoDup_filter.
Qed.

(** X1.  The select box offers each label once, and a label resolves
    to the identifier of the last session that carries it: of two
    sessions with the same name and date only the later one can be
    reached. *)
Theorem session_label_resolves_to_last sessions label :
  NoDup (keys (session_options sessions)) /\
  dict_get label (session_options sessions) =
  option_map s_id (last_with_label sessions label).
Proof.
  split.
  - unfold session_options.
    rewrite (keys_fold_dict_set session_label s_id). simpl keys.
    rewrite fold_add_key_nil. apply NoDup_first_occurrences.
  - unfold session_options, last_with_label.
    induction sessions as [|s ss IH] using rev_ind; auto.
    rewrite fold_left_app, rev_app_distr. simpl.
    rewrite dict_get_set. destruct (String.eqb (session_label s) label); auto.
Qed.

Example twin_sessions_resolve_to_the_later :
  selected_session {| list_sessions := twin_sessions;
                      list_candidates := fun _ => [];
                      get_scores_for_candidate := fun _ => [] |} first_option = Ok 2%nat.
Proof. reflexivity. Qed.

(** ** The pages without data *)








(** ** Scored candidates *)

Lemma scored_records_filter repo candidates :
  scored_records repo candidates =
  map (fun c => (c_name c, score_dict (get_scores_for_candidate repo (c_id c))))
      (filter (is_scored repo) candidates).
Proof.
  unfold scored_records, is_scored. induction candidates as [|c cs IH]; simpl; auto.
  destruct (get_scores_for_candidate repo (c_id c)) eqn:E; simpl; rewrite IH; auto.
  now rewrite E.
Qed.

Lemma completed_filter repo candidates :
  completed repo candidates = List.length (filter (is_scored repo) candidates).
Proof. reflexivity. Qed.

(** X3.  When the dashboard shows its metrics, "Total Candidates" is
    the number of candidates of the session, "Evaluated" is the number
    of rows of the score table, and 1 <= Evaluated <= Total. *)
Theorem dashboard_counts repo selectbox sid n a k t :
  selected_session repo selectbox = Ok sid ->
  show_analytics_dashboard repo selectbox = Ok (DashMetrics n a k t) ->
  n = List.length (list_candidates repo sid) /\
  k = List.length (rows (frame_of (scored_records repo (list_candidates repo sid)))) /\
  (1 <= k <= n)%nat.
Proof.
  intros Hsel Hd.
  destruct (dashboard_metrics_inv _ _ _ _ _ _ _ Hsel Hd) as [Hn [_ [Hk _]]].
  assert (Hrows : k = List.length
                        (rows (frame_of (scored_records repo (list_candidates repo sid))))).
  { rewrite Hk, frame_of_rows_length, scored_records_filter, length_map.
    apply completed_filter. }
  split; auto. split; auto. split.
  - rewrite Hrows, frame_of_rows_length.
    unfold selected_session, show_analytics_dashboard in *.
    destruct (list_sessions repo) as [|s0 ss]; [discriminate|].
    rewrite Hsel in Hd. simpl in Hd.
    destruct (list_candidates repo sid) as [|c0 cs]; [discriminate|].
    destruct (scored_records repo (c0 :: cs)); [discriminate|]. simpl. lia.
  - rewrite Hk, Hn, completed_filter. apply filter_length_le.
Qed.

Lemma dashboard_counts_witness :
  2%nat = List.length (list_candidates repo_uneven 1) /\
  2%nat = List.length (rows (frame_of (scored_records repo_uneven
                                         (list_candidates repo_uneven 1)))) /\
  (1 <= 2 <= 2)%nat.
Proof.
  apply (dashboard_counts repo_uneven first_option 1 2 (Num (20 # 4)) 2 (Num 10)).
  - reflexivity.
  - reflexivity.
Defined.

(** ** Cells of the score table *)

Lemma score_dict_last scores metric :
  dict_get metric (score_dict scores) = option_map Num (last_score scores metric).
Proof.
  unfold score_dict, last_score.
  induction scores as [|s ss IH] using rev_ind; auto.
  rewrite fold_left_app, rev_app_distr. simpl.
  rewrite dict_get_set. destruct (String.eqb (sc_metric s) metric); auto.
Qed.

(** X4.  The rows of the score table are the candidates with at least
    one score, in listing order and under their names; the cell of a
    candidate under a column is the value of its last score filed under
    that metric, and NaN when it has none. *)
Theorem table_cell_is_last_score repo candidates i cand :
  nth_error (filter (is_scored repo) candidates) i = Some cand ->
  let df := frame_of (scored_records repo candidates) in
  exists r,
    nth_error (rows df) i = Some r /\
    r_index r = i /\ r_name r = c_name cand /\
    forall m, In m (columns df) ->
      loc r m =
      match last_score (get_scores_for_candidate repo (c_id cand)) m with
      | Some v => Num v
      | None => NaN
      end.
Proof.
  intros Hi df.
  assert (Hrec : nth_error (scored_records repo candidates) i =
                 Some (c_name cand, score_dict (get_scores_for_candidate repo (c_id cand)))).
  { rewrite scored_records_filter, nth_error_map, Hi. reflexivity. }
  destruct (frame_of_row _ _ _ Hrec) as [r [Hr [Hidx [Hn Hloc]]]].
  exists r. repeat split; auto. intros m Hm.
  rewrite (Hloc m Hm). simpl. unfold cell_of. rewrite score_dict_last.
  now destruct (last_score (get_scores_for_candidate repo (c_id cand)) m).
Qed.

Lemma table_cell_is_last_score_witness :
  let df := frame_of (scored_records repo_uneven (list_candidates repo_uneven 1)) in
  exists r,
    nth_error (rows df) 1 = Some r /\
    r_index r = 1%nat /\ r_name r = c_name (cand 2 "B") /\
    forall m, In m (columns df) ->
      loc r m =
      match last_score (get_scores_for_candidate repo_uneven (c_id (cand 2 "B"))) m with
      | Some v => Num v
      | None => NaN
      end.
Proof.
  apply (table_cell_is_last_score repo_uneven (list_candidates repo_uneven 1) 1 (cand 2 "B")).
  reflexivity.
Defined.

(** ** Active metrics *)

Lemma not_in_spec reserved_names c :
  not_in reserved_names c = true <-> ~ In c reserved_names.
Proof. unfold not_in. rewrite negb_true_iff. apply mem_false. Qed.

(** X5.  The active metrics of the ranking page are, without
    repetition, exactly the metrics under which some candidate of the
    session has a score, the four bookkeeping names left out. *)
Theorem active_metrics_are_the_observed repo candidates :
  let metrics := metrics_of (frame_of (scored_records repo candidates)) in
  NoDup metrics /\
  forall m, In m metrics <->
            ~ In m reserved /\
            exists cand s, In cand candidates /\
                           In s (get_scores_for_candidate repo (c_id cand)) /\
                           sc_metric s = m.
Proof.
  intros metrics. unfold metrics, metrics_of.
  rewrite columns_frame_of, first_seen_concat, observed_keys, fold_add_key_nil.
  split.
  - apply NoDup_filter, NoDup_first_occurrences.
  - intros m. rewrite filter_In, first_occurrences_In, not_in_spec.
    unfold observed_metrics. rewrite in_flat_map. split.
    + intros [[cand [Hc Hm]] Hr]. split; auto.
      apply in_map_iff in Hm. destruct Hm as [s [Hs Hin]]. eauto.
    + intros [Hr [cand [s [Hc [Hs Hm]]]]]. split; auto.
      exists cand. split; auto. apply in_map_iff. eauto.
Qed.

(** ** Rows and columns of the export *)

Lemma frame_of_names records :
  map r_name (rows (frame_of records)) = map fst records.
Proof.
  unfold frame_of. simpl. rewrite map_map. simpl.
  rewrite <- (map_map snd fst). f_equal.
  apply map_snd_combine. apply length_seq.
Qed.

Lemma frame_of_row_inv records r :
  In r (rows (frame_of records)) ->
  exists i rec,
    nth_error records i = Some rec /\
    r_index r = i /\ r_name r = fst rec /\
    forall c, In c (columns (frame_of records)) -> loc r c = cell_of (snd rec) c.
Proof.
  intros H. apply In_nth_error in H. destruct H as [i Hi].
  assert (Hlt : (i < List.length records)%nat).
  { rewrite <- frame_of_rows_length. apply nth_error_Some. congruence. }
  destruct (nth_error records i) as [rec|] eqn:Er; [|apply nth_error_None in Er; lia].
  destruct (frame_of_row _ _ _ Er) as [r' [Hr' H]].
  rewrite Hi in Hr'. injection Hr' as <-. eauto.
Qed.

(** X6.  The export has one row per candidate of the session, scored
    or not, in listing order and under the candidate's name; the score
    table of the ranking page has the scored candidates only, so it is
    never longer. *)
Theorem export_lists_every_candidate (METRICS : list string) repo sid :
  let candidates := list_candidates repo sid in
  map r_name (rows (export_df METRICS repo sid)) = map c_name candidates /\
  map r_index (rows (export_df METRICS repo sid)) = seq 0 (List.length candidates) /\
  map r_name (rows (frame_of (scored_records repo candidates))) =
    map c_name (filter (is_scored repo) candidates) /\
  (List.length (rows (frame_of (scored_records repo candidates)))
   <= List.length (rows (export_df METRICS repo sid)))%nat.
Proof.
  intros candidates. unfold export_df. fold candidates.
  assert (Hlen : List.length (rows (frame_of (export_data METRICS repo candidates))) =
                 List.length candidates).
  { rewrite frame_of_rows_length. unfold export_data. apply length_map. }
  split; [|split; [|split]].
  - rewrite frame_of_names. unfold export_data. rewrite map_map. reflexivity.
  - rewrite <- Hlen. apply frame_of_range_index.
  - rewrite frame_of_names, scored_records_filter, map_map. reflexivity.
  - rewrite Hlen, frame_of_rows_length, scored_records_filter, length_map.
    apply filter_length_le.
Qed.

Lemma first_occurrences_NoDup l : NoDup l -> first_occurrences l = l.
Proof.
  induction 1 as [|x l Hx Hl IH]; simpl; auto.
  rewrite IH. f_equal. apply filter_all_in. intros y Hy.
  apply negb_true_iff. destruct (String.eqb x y) eqn:E; auto.
  apply String.eqb_eq in E. subst. contradiction.
Qed.

Lemma fold_add_key_absorb l acc :
  (forall k, In k l -> In k acc) -> fold_left add_key l acc = acc.
Proof.
  induction l as [|x l IH]; simpl; auto. intros H.
  rewrite add_key_old by (apply mem_In; auto). apply IH. auto.
Qed.

(** X7.  When no candidate of a session with candidates has a score,
    the score columns of the export are the registry itself, in
    registry order, and every cell under them is missing. *)
Theorem export_without_scores (METRICS : list string) repo sid :
  NoDup METRICS ->
  list_candidates repo sid <> [] ->
  no_scores repo (list_candidates repo sid) ->
  columns (export_df METRICS repo sid) = METRICS /\
  forall r c, In r (rows (export_df METRICS repo sid)) -> In c METRICS -> loc r c = NaN.
Proof.
  intros Hnd Hne Hno.
  assert (Hcols : columns (export_df METRICS repo sid) = METRICS).
  { unfold export_df. rewrite columns_frame_of, first_seen_concat, exported_keys.
    unfold exported_metrics.
    destruct (list_candidates repo sid) as [|c0 cs]; [congruence|].
    simpl. rewrite (Hno c0) by (simpl; auto).
    rewrite fold_left_app, fold_add_key_nil, first_occurrences_NoDup by assumption.
    apply fold_add_key_absorb. intros k Hk. apply in_flat_map in Hk.
    destruct Hk as [c [Hc Hk]]. rewrite (Hno c) in Hk by (simpl; auto). exact Hk. }
  split; auto. intros r c Hr Hc.
  unfold export_df in Hr. apply frame_of_row_inv in Hr.
  destruct Hr as [i [rec [Hrec [_ [_ Hloc]]]]].
  fold (export_df METRICS repo sid) in Hloc. rewrite Hcols in Hloc.
  rewrite (Hloc c Hc).
  apply nth_error_In in Hrec. unfold export_data in Hrec. apply in_map_iff in Hrec.
  destruct Hrec as [cd [<- Hcd]]. simpl.
  apply export_cells_missing. rewrite (Hno cd Hcd). simpl. tauto.
Qed.

Lemma export_without_scores_witness :
  columns (export_df registry repo_unscored 1) = registry /\
  forall r c, In r (rows (export_df registry repo_unscored 1)) -> In c registry ->
              loc r c = NaN.
Proof.
  apply (export_without_scores registry repo_unscored 1).
  - repeat constructor; simpl; intuition discriminate.
  - discriminate.
  - intros c Hc. reflexivity.
Defined.

(** ** Who is in the ranking table *)

Lemma rank_composite_rows K df metrics nz n :
  has_columns df metrics = true ->
  exists table f G,
    rank_composite K df metrics nz n = Ok table /\
    ranks f (firstn n (sort_rows_desc K f (map G (rows df)))) table /\
    (forall r, r_index (G r) = r_index r /\ r_name (G r) = r_name r).
Proof.
  intros Hc. destruct (composite_frame_ok df metrics nz Hc) as [df1 [cols [G [Heq [Hrows HG]]]]].
  unfold rank_composite. rewrite Heq. simpl. rewrite sort_values_assign. simpl.
  eexists. exists (row_mean cols), G. split; [reflexivity|]. split; auto.
  rewrite <- Hrows. apply ranked_table_assign.
Qed.

(** Every method ranks the first [top_n] rows of a sorted order of the
    rows of the table, which keep their index label and name. *)
Lemma rank_by_rows K df metrics cfg :
  has_columns df metrics = true ->
  mem (ranking_metric cfg) (columns df) = true ->
  exists table f G,
    rank_by K df metrics cfg = Ok table /\
    ranks f (firstn (top_n cfg) (sort_rows_desc K f (map G (rows df)))) table /\
    (forall r, r_index (G r) = r_index r /\ r_name (G r) = r_name r).
Proof.
  intros Hc Hm. unfold rank_by. destruct (weight_method cfg).
  - destruct (rank_single_ranks K df _ (top_n cfg) Hm) as [table [Heq Hr]].
    exists table, (fun r => loc r (ranking_metric cfg)), (fun r => r).
    rewrite map_id. auto.
  - destruct (rank_weighted_ranks K df metrics (weights cfg) (top_n cfg) Hc) as [table [Heq Hr]].
    exists table, (weighted_score metrics (weights cfg)), (fun r => r).
    rewrite map_id. auto.
  - apply rank_composite_rows; auto.
Qed.

Lemma ranks_rows_In K f (G : Row -> Row) rs n table e :
  (forall r, r_index (G r) = r_index r /\ r_name (G r) = r_name r) ->
  ranks f (firstn n (sort_rows_desc K f (map G rs))) table ->
  In e table ->
  exists r, In r rs /\ rk_index e = r_index r /\ rk_name e = r_name r /\
            rk_score e = f (G r).
Proof.
  intros HG Hr He. destruct (ranks_In _ _ _ _ Hr He) as [r' [Hin [Hi [Hn Hs]]]].
  apply In_firstn, sort_rows_desc_In, in_map_iff in Hin.
  destruct Hin as [r [<- Hin]]. exists r. destruct (HG r) as [E1 E2].
  repeat split; auto; congruence.
Qed.

Lemma NoDup_firstn {A} n (l : list A) : NoDup l -> NoDup (firstn n l).
Proof.
  intros H. revert n. induction H as [|a l Ha Hl IH]; intros [|n]; simpl;
    try constructor; auto.
  intros Hin. apply In_firstn in Hin. contradiction.
Qed.

(** X8.  For every method, no candidate is listed twice, and when
    [top_n] reaches the number of rows of the table every candidate of
    the table is listed exactly once. *)
Theorem ranking_lists_each_candidate_once K df metrics cfg :
  sorts K ->
  range_index df ->
  has_columns df metrics = true ->
  mem (ranking_metric cfg) (columns df) = true ->
  exists table,
    rank_by K df metrics cfg = Ok table /\
    NoDup (map rk_index table) /\
    ((List.length (rows df) <= top_n cfg)%nat ->
     Permutation (map rk_index table) (seq 0 (List.length (rows df)))).
Proof.
  intros HK Hri Hc Hm.
  destruct (rank_by_rows K df metrics cfg Hc Hm) as [table [f [G [Heq [Hr HG]]]]].
  exists table. split; auto.
  assert (Hperm : Permutation (map r_index (sort_rows_desc K f (map G (rows df))))
                              (seq 0 (List.length (rows df)))).
  { rewrite (sort_rows_desc_perm K f _ HK), map_map, <- Hri.
    apply Permutation_refl'. apply map_ext. intros r. apply HG. }
  destruct Hr as [_ [Hidx _]]. rewrite Hidx, <- firstn_map. split.
  - apply NoDup_firstn. apply (Permutation_NoDup (Permutation_sym Hperm)), seq_NoDup.
  - intros Hn. rewrite firstn_all2; auto.
    rewrite length_map, sort_rows_desc_length, length_map; auto.
Qed.

Lemma ranking_lists_each_candidate_once_witness :
  exists table,
    rank_by stable_kind (frame_of records_ABC) two_metrics (composite_cfg true 3) = Ok table /\
    NoDup (map rk_index table) /\
    ((List.length (rows (frame_of records_ABC)) <= top_n (composite_cfg true 3))%nat ->
     Permutation (map rk_index table) (seq 0 (List.length (rows (frame_of records_ABC))))).
Proof.
  apply (ranking_lists_each_candidate_once stable_kind (frame_of records_ABC) two_metrics
           (composite_cfg true 3)).
  - exact before_le_sorts.
  - reflexivity.
  - reflexivity.
  - reflexivity.
Defined.

(** X9.  Every line of the table of the ranking page is a candidate of
    the selected session that has at least one score: the line with
    index label [i] is the [i]-th scored candidate of the listing, under
    its name.  A candidate without scores is never ranked. *)
Theorem ranking_page_lists_scored_candidates K repo selectbox cfg sid :
  selected_session repo selectbox = Ok sid ->
  In (ranking_metric cfg)
     (metrics_of (frame_of (scored_records repo (list_candidates repo sid)))) ->
  exists table,
    show_ranking_module K repo selectbox cfg = Ok (RankTable table) /\
    forall e, In e table ->
      exists cand,
        nth_error (filter (is_scored repo) (list_candidates repo sid)) (rk_index e) = Some cand /\
        c_name cand = rk_name e /\
        In cand (list_candidates repo sid) /\
        get_scores_for_candidate repo (c_id cand) <> [].
Proof.
  intros Hsel Hm.
  destruct (ranking_page_table K repo selectbox cfg sid Hsel Hm) as [table [Hpage [Hrank _]]].
  exists table. split; auto. intros e He.
  set (df := frame_of (scored_records repo (list_candidates repo sid))) in *.
  assert (Hcol : mem (ranking_metric cfg) (columns df) = true).
  { apply mem_In. unfold metrics_of in Hm. apply filter_In in Hm. tauto. }
  destruct (rank_by_rows K df (metrics_of df) cfg (metrics_of_has_columns df) Hcol)
    as [table' [f [G [Heq [Hr HG]]]]].
  rewrite Hrank in Heq. injection Heq as <-.
  destruct (ranks_rows_In K f G _ _ _ e HG Hr He) as [r [Hin [Hi [Hn _]]]].
  unfold df in Hin. apply frame_of_row_inv in Hin.
  destruct Hin as [i [rec [Hrec [Hidx [Hname _]]]]].
  rewrite scored_records_filter, nth_error_map in Hrec.
  destruct (nth_error (filter (is_scored repo) (list_candidates repo sid)) i)
    as [cand|] eqn:Ec; [|discriminate].
  simpl in Hrec. injection Hrec as <-. simpl in Hname.
  exists cand. rewrite Hi, Hidx, Hn, Hname. split; auto. split; auto.
  apply nth_error_In, filter_In in Ec. destruct Ec as [Hc Hs]. split; auto.
  unfold is_scored in Hs. destruct (get_scores_for_candidate repo (c_id cand)); congruence.
Qed.

Lemma ranking_page_lists_scored_candidates_witness :
  exists table,
    show_ranking_module stable_kind repo_uneven first_option
                        (single_cfg "Communication" 2) = Ok (RankTable table) /\
    forall e, In e table ->
      exists cand,
        nth_error (filter (is_scored repo_uneven) (list_candidates repo_uneven 1))
                  (rk_index e) = Some cand /\
        c_name cand = rk_name e /\
        In cand (list_candidates repo_uneven 1) /\
        get_scores_for_candidate repo_uneven (c_id cand) <> [].
Proof.
  apply (ranking_page_lists_scored_candidates stable_kind repo_uneven first_option
           (single_cfg "Communication" 2) 1).
  - reflexivity.
  - simpl. auto.
Defined.

(** ** The top of a single-metric ranking *)

(** X10.  Single Metric: as soon as one candidate has a score for the
    chosen metric and [top_n] is at least 1, the line of rank 1 holds
    the maximum of that metric's column. *)
Theorem single_metric_first_is_max K df metric n :
  sorts K ->
  mem metric (columns df) = true ->
  has_value df metric = true ->
  (1 <= n)%nat ->
  exists e rest,
    rank_single K df metric n = Ok (e :: rest) /\
    rk_rank e = 1%nat /\
    ceq (rk_score e) (series_max (col df metric)).
Proof.
  intros HK Hm Hv Hn.
  destruct (rank_single_ranks K df metric n Hm) as [table [Heq Hr]].
  destruct (sort_rows_desc_shape K (fun r => loc r metric) (rows df) HK)
    as [scored [Hshape [Hperm Hs]]].
  rewrite Hshape in Hr.
  pose proof (series_max_is_max (col df metric)) as Hmax.
  unfold has_value in Hv.
  destruct (series_max (col df metric)) as [|M] eqn:EM; simpl in Hmax.
  { rewrite Hmax in Hv. discriminate. }
  destruct Hmax as [HM Hub]. apply present_In in HM. unfold col in HM.
  apply in_map_iff in HM. destruct HM as [rM [HlocM HrM]].
  assert (HinM : In rM scored).
  { apply (Permutation_in _ (Permutation_sym Hperm)), filter_In. split; auto.
    unfold notna. now rewrite HlocM. }
  destruct scored as [|r0 scored']; [destruct HinM|].
  destruct n as [|n]; [lia|]. simpl in Hr.
  destruct table as [|e rest].
  { apply ranks_length in Hr. discriminate. }
  exists e, rest. split; auto.
  destruct (ranks_nth _ _ _ 0%nat e Hr eq_refl) as [r [Hr0 [Hrk [_ [_ Hsc]]]]].
  simpl in Hr0. injection Hr0 as <-. split; auto.
  rewrite Hsc.
  assert (H0 : In r0 (filter (fun r => notna (loc r metric)) (rows df)))
    by (apply (Permutation_in _ Hperm); simpl; auto).
  apply filter_In in H0. destruct H0 as [Hr0 Hnn].
  destruct (loc r0 metric) as [|v0] eqn:E0; [discriminate|]. simpl.
  apply Qle_antisym.
  - apply Hub. apply present_In. unfold col. apply in_map_iff. eauto.
  - apply StronglySorted_inv in Hs. destruct Hs as [_ Hs].
    destruct HinM as [<-|HinM].
    + rewrite HlocM in E0. injection E0 as <-. apply Qle_refl.
    + rewrite Forall_forall in Hs. specialize (Hs rM HinM).
      rewrite HlocM, E0 in Hs. exact Hs.
Qed.

Lemma single_metric_first_is_max_witness :
  exists e rest,
    rank_single stable_kind (frame_of records_AD) "Communication" 2 = Ok (e :: rest) /\
    rk_rank e = 1%nat /\
    ceq (rk_score e) (series_max (col (frame_of records_AD) "Communication")).
Proof.
  apply (single_metric_first_is_max stable_kind (frame_of records_AD) "Communication" 2).
  - exact before_le_sorts.
  - reflexivity.
  - reflexivity.
  - repeat constructor.
Defined.

(** ** Weighted scores of fully scored candidates *)

Lemma weighted_score_numeric metrics weights r :
  all_present metrics r = true ->
  exists s, weighted_score metrics weights r = Num s /\
            s == zero_fill_score metrics weights r.
Proof.
  intros H. pose proof (weighted_score_present metrics weights r H) as Hc.
  destruct (weighted_score metrics weights r) as [|s]; [destruct Hc|]. eauto.
Qed.

(** X11.  Weighted Average with non-negative weights: a fully scored
    candidate that has at least the value of another fully scored
    candidate on every metric has at least its weighted score. *)
Theorem weighted_score_monotone metrics weights r1 r2 :
  nonneg_weights metrics weights ->
  all_present metrics r1 = true ->
  all_present metrics r2 = true ->
  dominates metrics r1 r2 ->
  exists s1 s2,
    weighted_score metrics weights r1 = Num s1 /\
    weighted_score metrics weights r2 = Num s2 /\
    s2 <= s1.
Proof.
  intros Hw H1 H2 Hd.
  destruct (weighted_score_numeric metrics weights r1 H1) as [s1 [E1 Q1]].
  destruct (weighted_score_numeric metrics weights r2 H2) as [s2 [E2 Q2]].
  exists s1, s2. split; auto. split; auto. rewrite Q1, Q2.
  clear - Hw Hd. unfold zero_fill_score.
  induction metrics as [|m metrics IH]; simpl; [apply Qle_refl|].
  apply Qplus_le_compat.
  - apply Qmult_le_compat_r; [apply Hd|apply Hw]; simpl; auto.
  - apply IH; intros m' Hm'; [apply Hw|apply Hd]; simpl; auto.
Qed.

Lemma weighted_score_monotone_witness :
  exists s1 s2,
    weighted_score two_metrics half_weights
      {| r_index := 1; r_name := "B";
         r_cells := [("Technical Skills"%string, Num 8); ("Communication"%string, Num 9)] |}
    = Num s1 /\
    weighted_score two_metrics half_weights
      {| r_index := 0; r_name := "A";
         r_cells := [("Technical Skills"%string, Num 8); ("Communication"%string, Num 6)] |}
    = Num s2 /\
    s2 <= s1.
Proof.
  apply (weighted_score_monotone two_metrics half_weights).
  - intros m [<-|[<-|[]]]; vm_compute; discriminate.
  - reflexivity.
  - reflexivity.
  - intros m [<-|[<-|[]]]; vm_compute; discriminate.
Defined.

(** ** Bounds of the composite score *)

Lemma Qsum_bounds a b l :
  (forall x, In x l -> a <= x <= b) ->
  a * inject_Z (Z.of_nat (List.length l)) <= Qsum l <= b * inject_Z (Z.of_nat (List.length l)).
Proof.
  induction l as [|x l IH]; intros H.
  - change (inject_Z (Z.of_nat (List.length (@nil Q)))) with 0.
    change (Qsum []) with 0. lra.
  - destruct (IH (fun y Hy => H y (or_intror Hy))) as [L U].
    destruct (H x (or_introl eq_refl)) as [Lx Ux].
    change (List.length (x :: l)) with (S (List.length l)).
    rewrite Nat2Z.inj_succ, <- Z.add_1_r, inject_Z_plus. simpl Qsum.
    change (inject_Z 1) with 1. lra.
Qed.

Lemma mean_of_within a b l :
  (forall x, In x l -> a <= x <= b) -> nan_or_within a b (mean_of l).
Proof.
  intros H. destruct l as [|x l]; [exact I|].
  unfold mean_of, nan_or_within.
  assert (Hk : 0 < inject_Z (Z.of_nat (List.length (x :: l))))
    by (apply inject_nat_pos; simpl; lia).
  destruct (Qsum_bounds a b (x :: l) H) as [L U]. split.
  - apply Qle_shift_div_l; auto.
  - apply Qle_shift_div_r; auto.
Qed.

Lemma series_mean_within a b s :
  (forall c, In c s -> nan_or_within a b c) -> nan_or_within a b (series_mean s).
Proof.
  intros H. apply mean_of_within. intros x Hx. apply present_In in Hx.
  apply (H (Num x) Hx).
Qed.

Lemma composite_scores_within K df metrics nz n a b :
  has_columns df metrics = true ->
  implb nz (norm_fresh metrics) = true ->
  (forall r m, In r (rows df) -> In m metrics ->
               nan_or_within a b (composite_value df nz r m)) ->
  exists table,
    rank_composite K df metrics nz n = Ok table /\
    Forall (fun e => nan_or_within a b (rk_score e)) table.
Proof.
  intros Hc Hf Hv.
  destruct (rank_composite_ranks K df metrics nz n Hc Hf) as [table [Heq Hr]].
  exists table. split; auto. apply Forall_forall. intros e He.
  destruct (ranks_In _ _ _ _ Hr He) as [r [Hin [_ [_ ->]]]].
  apply In_firstn, sort_rows_desc_In in Hin.
  apply series_mean_within. intros c Hcin. apply in_map_iff in Hcin.
  destruct Hcin as [m [<- Hm]]. now apply Hv.
Qed.

(** X12.  Composite Score with normalization: every composite score of
    the result is missing or lies in [0, 1]. *)
Theorem composite_normalized_in_unit_interval K df metrics n :
  has_columns df metrics = true ->
  norm_fresh metrics = true ->
  exists table,
    rank_composite K df metrics true n = Ok table /\
    Forall (fun e => nan_or_within 0 1 (rk_score e)) table.
Proof.
  intros Hc Hf. apply composite_scores_within; auto.
  intros r m Hr Hm. unfold composite_value, norm_value.
  destruct (norm_cell_range (col df m) (loc r m)) as [->|[q [-> Hq]]].
  - unfold col. apply in_map_iff. eauto.
  - exact I.
  - exact Hq.
Qed.

Lemma composite_normalized_in_unit_interval_witness :
  exists table,
    rank_composite stable_kind (frame_of records_ABC) two_metrics true 3 = Ok table /\
    Forall (fun e => nan_or_within 0 1 (rk_score e)) table.
Proof.
  apply (composite_normalized_in_unit_interval stable_kind (frame_of records_ABC)
           two_metrics 3).
  - reflexivity.
  - reflexivity.
Defined.



(** ** The radar chart of a ranked candidate *)

Lemma find_split {A} (P : A -> bool) l x :
  find P l = Some x ->
  exists l1 l2, l = l1 ++ x :: l2 /\ P x = true /\ forall y, In y l1 -> P y = false.
Proof.
  induction l as [|a l IH]; simpl; [discriminate|].
  destruct (P a) eqn:E.
  - intros H. injection H as <-. exists [], l. repeat split; auto. intros y [].
  - intros H. destruct (IH H) as [l1 [l2 [-> [Hx Hl1]]]].
    exists (a :: l1), l2. repeat split; auto.
    intros y [<-|Hy]; auto.
Qed.

Lemma find_map_rows (P : Row -> bool) (g : Row -> Row) l :
  (forall r, P (g r) = P r) -> find P (map g l) = option_map g (find P l).
Proof.
  intros H. induction l as [|a l IH]; simpl; auto.
  rewrite H. destruct (P a); auto.
Qed.

Lemma app_eq_length {A} (a c b d : list A) :
  List.length a = List.length c -> a ++ b = c ++ d -> a = c /\ b = d.
Proof.
  revert c. induction a as [|x a IH]; intros [|y c] Hl H; simpl in *; try discriminate; auto.
  injection H as -> H. destruct (IH c) as [-> ->]; auto.
Qed.

Lemma seq_index_app (l1 l2 : list Row) x n :
  map r_index (l1 ++ x :: l2) = seq 0 n ->
  r_index x = List.length l1 /\ forall y, In y l2 -> (List.length l1 < r_index y)%nat.
Proof.
  intros H.
  assert (Hn : n = (List.length l1 + S (List.length l2))%nat).
  { apply (f_equal (@List.length nat)) in H.
    rewrite length_map, length_app, length_seq in H. simpl in H. lia. }
  subst n. rewrite map_app, seq_app in H. simpl in H.
  apply app_eq_length in H; [|now rewrite length_map, length_seq].
  destruct H as [_ H]. injection H as Hx Hl2. split; auto.
  intros y Hy. apply (in_map r_index) in Hy. rewrite Hl2 in Hy.
  apply in_seq in Hy. lia.
Qed.

Lemma NoDup_map_eq {A B} (f : A -> B) l x y :
  NoDup (map f l) -> In x l -> In y l -> f x = f y -> x = y.
Proof.
  induction l as [|a l IH]; simpl; [tauto|].
  intros H Hx Hy E. apply NoDup_cons_iff in H. destruct H as [Ha H].
  destruct Hx as [->|Hx], Hy as [->|Hy]; auto.
  - exfalso. apply Ha. rewrite E. now apply in_map.
  - exfalso. apply Ha. rewrite <- E. now apply in_map.
Qed.

(** X14.  For every line of a ranking, the row looked up by name for
    the radar chart exists (no [IndexError]) and carries that name; it
    is the first row of the table with that name, so its index label is
    at most that of the ranked candidate, and it is the ranked candidate
    when the names of the table are distinct.  Assigning a score column
    does not change which row is looked up. *)
Theorem radar_row_of_ranked K df metrics cfg :
  range_index df ->
  has_columns df metrics = true ->
  mem (ranking_metric cfg) (columns df) = true ->
  exists table,
    rank_by K df metrics cfg = Ok table /\
    forall e, In e table ->
      exists r,
        radar_row df (rk_name e) = Some r /\
        r_name r = rk_name e /\
        (r_index r <= rk_index e)%nat /\
        (NoDup (map r_name (rows df)) -> r_index r = rk_index e) /\
        (forall c f, option_map r_index (radar_row (assign df c f) (rk_name e)) =
                     Some (r_index r)).
Proof.
  intros Hri Hc Hm.
  destruct (rank_by_rows K df metrics cfg Hc Hm) as [table [f [G [Heq [Hr HG]]]]].
  exists table. split; auto. intros e He.
  destruct (ranks_rows_In K f G _ _ _ e HG Hr He) as [r1 [Hin [Hi [Hn _]]]].
  unfold radar_row.
  destruct (find (fun r => String.eqb (r_name r) (rk_name e)) (rows df)) as [r|] eqn:Ef.
  - destruct (find_split _ _ _ Ef) as [l1 [l2 [Hrows [Hname Hl1]]]].
    apply String.eqb_eq in Hname.
    exists r. split; auto. split; auto.
    unfold range_index in Hri. rewrite Hrows in Hri, Hin.
    destruct (seq_index_app _ _ _ _ Hri) as [Hidx Hafter].
    split; [|split].
    + apply in_app_iff in Hin. destruct Hin as [Hin|[<-|Hin]].
      * specialize (Hl1 r1 Hin). simpl in Hl1. rewrite <- Hn, String.eqb_refl in Hl1.
        discriminate.
      * lia.
      * specialize (Hafter r1 Hin). lia.
    + intros Hnd. rewrite Hi. f_equal.
      apply (NoDup_map_eq r_name (rows df)); auto.
      * rewrite Hrows. apply in_or_app. simpl. auto.
      * rewrite Hrows. exact Hin.
      * congruence.
    + intros c g. rewrite rows_assign, find_map_rows by reflexivity.
      rewrite Ef. reflexivity.
  - exfalso. apply (find_none _ _ Ef) in Hin. simpl in Hin.
    rewrite <- Hn, String.eqb_refl in Hin. discriminate.
Qed.

Lemma radar_row_of_ranked_witness :
  exists table,
    rank_by stable_kind (frame_of records_ABC) two_metrics
            (single_cfg "Technical Skills" 2) = Ok table /\
    forall e, In e table ->
      exists r,
        radar_row (frame_of records_ABC) (rk_name e) = Some r /\
        r_name r = rk_name e /\
        (r_index r <= rk_index e)%nat /\
        (NoDup (map r_name (rows (frame_of records_ABC))) -> r_index r = rk_index e) /\
        (forall c f,
            option_map r_index (radar_row (assign (frame_of records_ABC) c f) (rk_name e)) =
            Some (r_index r)).
Proof.
  apply (radar_row_of_ranked stable_kind (frame_of records_ABC) two_metrics
           (single_cfg "Technical Skills" 2)).
  - reflexivity.
  - reflexivity.
  - reflexivity.
Defined.

(** ** The metric columns shown next to the score *)

Lemma ranked_table_In c cols dfr e :
  In e (ranked_table c cols dfr) ->
  exists r', In r' (rows dfr) /\
             rk_index e = r_index r' /\
             rk_values e = map (fun m => (m, loc r' m)) cols.
Proof.
  unfold ranked_table. rewrite in_map_iff. intros [[k r'] [<- Hin]].
  apply in_combine_r in Hin. exists r'. simpl. auto.
Qed.

Lemma values_after_assign c v r metrics :
  ~ In c metrics ->
  map (fun m => (m, loc (set_cell c v r) m)) metrics = map (fun m => (m, loc r m)) metrics.
Proof.
  intros H. apply map_ext_in. intros m Hm. f_equal.
  apply loc_set_cell_other. intros ->. contradiction.
Qed.

Lemma not_page_column metrics c :
  forallb (not_in page_columns) metrics = true ->
  In c page_columns -> ~ In c metrics.
Proof.
  intros H Hc Hin. rewrite forallb_forall in H. specialize (H c Hin).
  unfold not_in in H. apply negb_true_iff in H.
  apply mem_In in Hc. congruence.
Qed.

(** X16.  The metric columns shown next to the weighted or composite
    score are the candidate's recorded values, unchanged by the columns
    the page adds, as long as no metric is called like one of them:
    [rank], [weighted_score], [composite_score], a candidate column of
    line 191, or the [_norm] column of a metric.  Single Metric shows no
    metric column besides the score. *)
Theorem ranking_shows_recorded_values K df metrics cfg :
  has_columns df metrics = true ->
  mem (ranking_metric cfg) (columns df) = true ->
  norm_fresh metrics = true ->
  forallb (not_in page_columns) metrics = true ->
  exists table,
    rank_by K df metrics cfg = Ok table /\
    forall e, In e table ->
      exists r, In r (rows df) /\ r_index r = rk_index e /\
        rk_values e =
        match weight_method cfg with
        | SingleMetric => []
        | _ => map (fun m => (m, loc r m)) metrics
        end.
Proof.
  intros Hc Hm Hf Hp.
  assert (Hw : ~ In "weighted_score"%string metrics)
    by (apply (not_page_column _ _ Hp); simpl; auto).
  assert (Hcs : ~ In "composite_score"%string metrics)
    by (apply (not_page_column _ _ Hp); simpl; auto).
  unfold rank_by. destruct (weight_method cfg).
  - unfold rank_single, sort_values. rewrite (getcol_ok _ _ Hm). simpl.
    eexists. split; [reflexivity|]. intros e He.
    apply ranked_table_In in He. destruct He as [r [Hin [Hi Hv]]]. simpl in Hin.
    apply In_firstn, sort_rows_desc_In in Hin. eauto.
  - unfold rank_weighted. rewrite (check_cols_ok _ _ Hc). simpl.
    rewrite sort_values_assign. simpl. eexists. split; [reflexivity|]. intros e He.
    apply ranked_table_In in He. destruct He as [r' [Hin [Hi Hv]]]. simpl in Hin.
    apply In_firstn, in_map_iff in Hin. destruct Hin as [r [<- Hin]].
    apply sort_rows_desc_In in Hin.
    exists r. split; auto. split; auto. rewrite Hv. now apply values_after_assign.
  - unfold rank_composite, composite_frame. destruct (normalize cfg).
    + pose proof (norm_fresh_spec _ Hf) as Hfresh.
      destruct (normalize_all_ok metrics df Hc) as [df' [G [Heq [_ [_ [_ Hn]]]]]].
      rewrite Heq. simpl. rewrite (check_cols_ok _ _ Hn). simpl.
      rewrite sort_values_assign. simpl. eexists. split; [reflexivity|]. intros e He.
      apply ranked_table_In in He. destruct He as [r' [Hin [Hi Hv]]]. simpl in Hin.
      apply In_firstn, in_map_iff in Hin. destruct Hin as [r1 [<- Hin]].
      apply sort_rows_desc_In in Hin.
      rewrite (normalize_all_rows _ _ _ Hfresh Heq) in Hin. apply in_map_iff in Hin.
      destruct Hin as [r [<- Hin]].
      exists r. split; auto. split.
      * simpl in Hi. rewrite norm_row_index in Hi. auto.
      * rewrite Hv, values_after_assign by assumption.
        apply map_ext_in. intros m Hmm. f_equal. apply norm_row_other.
        intros H. apply in_map_iff in H. destruct H as [m' [E Hm']].
        apply (Hfresh m' m Hm' Hmm E).
    + simpl. rewrite (check_cols_ok _ _ Hc). simpl.
      rewrite sort_values_assign. simpl. eexists. split; [reflexivity|]. intros e He.
      apply ranked_table_In in He. destruct He as [r' [Hin [Hi Hv]]]. simpl in Hin.
      apply In_firstn, in_map_iff in Hin. destruct Hin as [r [<- Hin]].
      apply sort_rows_desc_In in Hin.
      exists r. split; auto. split; auto. rewrite Hv. now apply values_after_assign.
Qed.

Lemma ranking_shows_recorded_values_witness :
  exists table,
    rank_by stable_kind (frame_of records_AD) two_metrics (composite_cfg true 2) = Ok table /\
    forall e, In e table ->
      exists r, In r (rows (frame_of records_AD)) /\ r_index r = rk_index e /\
        rk_values e =
        match weight_method (composite_cfg true 2) with
        | SingleMetric => []
        | _ => map (fun m => (m, loc r m)) two_metrics
        end.
Proof.
  apply (ranking_shows_recorded_values stable_kind (frame_of records_AD) two_metrics
           (composite_cfg true 2)).
  - reflexivity.
  - reflexivity.
  - reflexivity.
  - reflexivity.
Defined.

(** ** The data management page *)

Lemma session_options_last sessions label :
  dict_get label (session_options sessions) =
  option_map s_id (last_with_label sessions label).
Proof.
  unfold session_options, last_with_label.
  induction sessions as [|s ss IH] using rev_ind; auto.
  rewrite fold_left_app, rev_app_distr. simpl.
  rewrite dict_get_set. destruct (String.eqb (session_label s) label); auto.
Qed.

Lemma selected_session_listed repo selectbox sid :
  selected_session repo selectbox = Ok sid ->
  exists s, In s (list_sessions repo) /\ s_id s = sid.
Proof.
  unfold selected_session, getitem. rewrite session_options_last.
  unfold last_with_label.
  destruct (find _ (rev (list_sessions repo))) as [s|] eqn:E; simpl; [|discriminate].
  intros H. injection H as <-. apply find_some in E. destruct E as [E _].
  apply in_rev in E. eauto.
Qed.

Lemma list_sum_ge (l : list nat) x : In x l -> (x <= list_sum l)%nat.
Proof.
  induction l as [|y l IH]; simpl; [tauto|]. intros [->|H]; [lia|].
  specialize (IH H). lia.
Qed.

(** X17.  The data management page shows a message when there is no
    session; it raises [KeyError] on the [date] column when no session
    carries a date (the other pages show such sessions with the label
    date N/A); otherwise, when the select box returns one of its
    options, it shows one line per session, the number of sessions, and
    an export that has one row per candidate of the selected session
    and never more rows than the "Total Candidates" statistic. *)
Theorem data_management_page (METRICS : list string) repo selectbox count_scores :
  let page := show_data_management METRICS repo selectbox count_scores in
  (list_sessions repo = [] -> page = Ok (MgmtInfo "No sessions available.")) /\
  (list_sessions repo <> [] ->
   existsb has_date (list_sessions repo) = false ->
   page = Raise (KeyError "date")) /\
  (forall sid,
     existsb has_date (list_sessions repo) = true ->
     selected_session repo selectbox = Ok sid ->
     exists shown,
       page = Ok (MgmtPage shown (export_df METRICS repo sid)
                           (List.length (list_sessions repo))
                           (total_candidates repo) count_scores) /\
       List.length shown = List.length (list_sessions repo) /\
       List.length (rows (export_df METRICS repo sid)) =
         List.length (list_candidates repo sid) /\
       (List.length (rows (export_df METRICS repo sid)) <= total_candidates repo)%nat).
Proof.
  intros page. unfold page, show_data_management. split; [|split].
  - intros ->. reflexivity.
  - intros Hne Hd. destruct (list_sessions repo) as [|s0 ss] eqn:Es; [congruence|].
    unfold sessions_table. now rewrite Hd.
  - intros sid Hd Hsel.
    destruct (selected_session_listed _ _ _ Hsel) as [s [Hs Hid]].
    unfold selected_session in Hsel.
    assert (Hrows : List.length (rows (export_df METRICS repo sid)) =
                    List.length (list_candidates repo sid)).
    { unfold export_df, export_data. now rewrite frame_of_rows_length, length_map. }
    assert (Htot : (List.length (list_candidates repo sid) <= total_candidates repo)%nat).
    { unfold total_candidates. apply list_sum_ge. apply in_map_iff.
      exists s. split; auto. now rewrite Hid. }
    destruct (list_sessions repo) as [|s0 ss] eqn:Es; [destruct Hs|].
    unfold sessions_table. rewrite Hd. simpl bind. rewrite Hsel. simpl bind.
    eexists. split; [reflexivity|].
    split; [simpl; now rewrite length_map|]. split; [exact Hrows|]. lia.
Qed.

Example undated_session_breaks_data_management :
  show_data_management registry
    {| list_sessions := undated_session;
       list_candidates := fun _ => [];
       get_scores_for_candidate := fun _ => [] |} first_option 0 = Raise (KeyError "date") /\
  show_analytics_dashboard
    {| list_sessions := undated_session;
       list_candidates := fun _ => [];
       get_scores_for_candidate := fun _ => [] |} first_option =
  Ok (DashInfo "No candidates in this session yet.").
Proof. split; reflexivity. Qed.
